(** * BookToSpeech: a shallow embedding of [sample.py]

    The development follows the Python class [BookToSpeech]: the voice
    registry ([__init__], [assign_voice]), the speaker attributor
    ([detect_speaker_ml], [detect_speaker]) and the sentence loop of
    [generate_audio] (segmentation, synthesis, track assembly, clean-up of
    the temporary files), then the text extraction
    ([extract_text_from_pdf]) and the script that ends the file.  Of
    [clean.py] it covers [PDFToScript.chunk_text], which shares the sentence
    splitting, and [PDFToScript.extract_text_from_pdf].

    Python values are modelled as follows.
    - [str] is a sequence of Unicode code points: [list N].
    - [int] is [Z]; list indexing follows Python (negative indices count
      from the end, anything else out of range raises [IndexError]).
    - [dict] is stdpp's [gmap]; the set of files on disk is a [gset] of
      directory entries.
    - The collaborators that are not part of the repository (the spaCy
      parser, [str.lower], the TTS engine together with the pydub loader,
      and the file system: which entry a path names, and whether an export
      to a path writes its file or raises) are section variables. *)

From Stdlib Require Import ZArith Ascii String DecimalString DecimalNat.
From stdpp Require Import gmap strings list fin_maps.

Local Open Scope Z_scope.

(** ** Python strings *)

Abbreviation str := (list N).

(** A literal of the source, as a sequence of code points. *)
Definition py (s : string) : str := N_of_ascii <$> list_ascii_of_string s.

(** [len(l)] *)
Definition len {A} (l : list A) : Z := Z.of_nat (length l).

(** [l[i]] on a Python list; [None] stands for [IndexError]. *)
Definition py_index {A} (l : list A) (i : Z) : option A :=
  if 0 <=? i then l !! Z.to_nat i
  else if - len l <=? i then l !! Z.to_nat (len l + i)
  else None.

(** ** The voice registry *)

(** The fields of [self] that [assign_voice] reads and writes. *)
Record BookToSpeech := mkBookToSpeech {
  available_voices : list str;
  character_voices : gmap str str;
  next_voice_index : Z
}.

Definition narrator : str := py "narrator".
Definition p225 : str := py "p225".

Definition voice_pool : list str :=
  py <$> ["p225"; "p226"; "p227"; "p228"; "p229";
          "p230"; "p231"; "p232"; "p233"; "p234"]%string.

(** The registry as [__init__] leaves it. *)
Definition init : BookToSpeech :=
  {| available_voices := voice_pool;
     character_voices := {[ narrator := p225 ]};
     next_voice_index := 1 |}.

(** The body of the [try] block of [assign_voice]: the right-hand side
    [available_voices[next_voice_index]] is evaluated first, so an
    [IndexError] ([None]) leaves [self] untouched. *)
Definition try_bind (character : str) (self : BookToSpeech) : option BookToSpeech :=
  match py_index (available_voices self) (next_voice_index self) with
  | Some v =>
      Some {| available_voices := available_voices self;
              character_voices := <[character := v]> (character_voices self);
              next_voice_index :=
                (next_voice_index self + 1) `mod` len (available_voices self) |}
  | None => None
  end.

(** The [except IndexError] branch. *)
Definition bind_fallback (character : str) (self : BookToSpeech) : BookToSpeech :=
  {| available_voices := available_voices self;
     character_voices := <[character := py "p225"]> (character_voices self);
     next_voice_index := next_voice_index self |}.

(** [assign_voice]: the state after the call. *)
Definition assign_voice_state (character : str) (self : BookToSpeech) : BookToSpeech :=
  match character_voices self !! character with
  | Some _ => self
  | None =>
      match try_bind character self with
      | Some self' => self'
      | None => bind_fallback character self
      end
  end.

(** [assign_voice]: the returned voice [self.character_voices[character]],
    read from the state after the call, paired with that state.  The read
    cannot miss ([KeyError]): the label is bound on every path, see
    [assign_voice_bound]; [[]] is a placeholder for that impossible case. *)
Definition assign_voice (character : str) (self : BookToSpeech) : str * BookToSpeech :=
  let self' := assign_voice_state character self in
  (default [] (character_voices self' !! character), self').

(** A sequence of calls, threading the registry. *)
Definition assign_voices (labels : list str) (self : BookToSpeech) : BookToSpeech :=
  fold_left (λ s l, (assign_voice l s).2) labels self.

(** One more label met: it joins the labels seen unless it is
    ["narrator"] or was seen before. *)
Definition see (seen : list str) (l : str) : list str :=
  if decide (l = narrator ∨ l ∈ seen) then seen else seen ++ [l].

(** The distinct labels other than ["narrator"], in order of first
    encounter. *)
Definition first_seen (labels : list str) : list str :=
  fold_left see labels [].

(** [tracks seen self]: [self] is the registry obtained from [init] once
    the labels [seen] (distinct, none of them ["narrator"]) have been met in
    that order: the [i]-th of them holds slot [(i + 1) mod 10] of the pool
    and the cursor stands at [(|seen| + 1) mod 10]. *)
Record tracks (seen : list str) (self : BookToSpeech) : Prop := {
  tr_pool : available_voices self = voice_pool;
  tr_nodup : NoDup seen;
  tr_narrator : character_voices self !! narrator = Some p225;
  tr_seen : ∀ (i : nat) l, seen !! i = Some l →
    character_voices self !! l = voice_pool !! Z.to_nat ((Z.of_nat i + 1) `mod` 10);
  tr_dom : ∀ l, is_Some (character_voices self !! l) → l = narrator ∨ l ∈ seen;
  tr_next : next_voice_index self = (len seen + 1) `mod` 10
}.

(** ** Whitespace and sentence segmentation *)

(** [str.isspace] on one code point; the class [\s] of a [str] pattern of
    [re] and the characters removed by [str.strip()] are the same set. *)
Definition isspace (c : N) : bool :=
  ((9 <=? c) && (c <=? 13) || (28 <=? c) && (c <=? 32)
   || (c =? 0x85) || (c =? 0xA0) || (c =? 0x1680)
   || (0x2000 <=? c) && (c <=? 0x200A)
   || (c =? 0x2028) || (c =? 0x2029) || (c =? 0x202F)
   || (c =? 0x205F) || (c =? 0x3000))%N.

(** The class [[.!?]]. *)
Definition is_terminal (c : N) : bool :=
  ((c =? 46) || (c =? 33) || (c =? 63))%N.

Fixpoint lstrip (s : str) : str :=
  match s with
  | c :: s' => if isspace c then lstrip s' else s
  | [] => []
  end.

Definition rstrip (s : str) : str := reverse (lstrip (reverse s)).

(** [s.strip()] *)
Definition strip (s : str) : str := lstrip (rstrip s).

(** [re.split(r'(?<=[.!?])\s+', text)], scanning [text] from the left.
    [cur] is the piece being read; [after_terminal] tells whether the
    previous character is one of [.!?] (the look-behind); [in_gap] tells
    whether the scan stands inside a separator, that is a run of whitespace
    that began right after such a character and that [\s+] consumes whole.
    The result always has a last piece, possibly empty. *)
Fixpoint split_scan (in_gap after_terminal : bool) (cur : str) (text : str)
  : list str :=
  match text with
  | [] => [cur]
  | c :: rest =>
      if isspace c then
        if in_gap then split_scan true false cur rest
        else if after_terminal then cur :: split_scan true false [] rest
        else split_scan false false (cur ++ [c]) rest
      else split_scan false (is_terminal c) (cur ++ [c]) rest
  end.

Definition split_sentences (text : str) : list str :=
  split_scan false false [] text.

(** The sentences that the loop of [generate_audio] goes on to process:
    each piece is stripped, and a piece that is then empty is passed over
    by [continue]. *)
Definition kept_sentence (piece : str) : option str :=
  match strip piece with
  | [] => None
  | sentence => Some sentence
  end.

Definition segment_sentences (text : str) : list str :=
  omap kept_sentence (split_sentences text).

(** [text] does not begin with a whitespace character. *)
Definition clean_start (text : str) : Prop :=
  match text with
  | c :: _ => isspace c = false
  | [] => True
  end.

(** [text] has no sentence boundary: nowhere is one of [.!?] immediately
    followed by a whitespace character. *)
Definition boundary_free (text : str) : Prop :=
  ∀ a c w b, text = a ++ c :: w :: b → is_terminal c = true → isspace w = false.

(** ** The speaker attributor *)

Definition DQUOTE : N := 34.
Definition SQUOTE : N := 39.
Definition LF : N := 10.

(** The character class of the pattern: the double and the single quote. *)
Definition is_quote (c : N) : bool := ((c =? DQUOTE) || (c =? SQUOTE))%N.

(** Group 1 of the pattern [Q(.*?)Q], where [Q] is the class of the two
    quote characters, once the opening quote is read: [.*?] is
    lazy, so the group ends at the first quote character that follows, and
    [.] does not match a line feed, so the attempt fails when a line feed
    (or the end of the text) comes before that quote. *)
Fixpoint lazy_group (s : str) : option str :=
  match s with
  | [] => None
  | c :: s' =>
      if is_quote c then Some []
      else if (c =? LF)%N then None
      else (c ::.) <$> lazy_group s'
  end.

(** The pattern tried at the first character of [s]. *)
Definition match_at (s : str) : option str :=
  match s with
  | c :: s' => if is_quote c then lazy_group s' else None
  | [] => None
  end.

(** [re.findall] of the pattern [Q(.*?)Q] on [s]: the groups of the successive
    non-overlapping matches, leftmost first.  After a match with group [g]
    at a position, the search resumes behind its closing quote, that is
    [length g + 1] characters further than the next one ([skip]). *)
Fixpoint findall_quoted (skip : nat) (s : str) : list str :=
  match s with
  | [] => []
  | c :: s' =>
      match skip with
      | S k => findall_quoted k s'
      | O =>
          match match_at (c :: s') with
          | Some g => g :: findall_quoted (S (length g)) s'
          | None => findall_quoted 0 s'
          end
      end
  end.

(** A direct dependent of a token; of it the code reads [dep_] and [text]. *)
Record Child := mkChild { dep_ : str; text : str }.

(** A token of the parse; of it the code reads [lemma_] and [children]. *)
Record Token := mkToken { lemma_ : str; children : list Child }.

Definition speech_verbs : list str :=
  py <$> ["say"; "said"; "exclaim"; "exclaimed"; "shout"; "shouted";
          "whisper"; "whispered"; "scream"; "screamed"; "yell"; "yelled";
          "ask"; "asked"; "reply"; "replied"]%string.

Definition subject_roles : list str := [py "nsubj"; py "nsubjpass"].

(** Truth value of a variable that holds [None] or a [str]. *)
Definition truthy (v : option str) : bool :=
  match v with
  | Some (_ :: _) => true
  | _ => false
  end.

(** The inner loop over [token.children]: the first child in a subject
    role sets [speaker]; without one [speaker] keeps its value. *)
Definition children_loop (cs : list Child) (speaker : option str) : option str :=
  match find (λ child, bool_decide (dep_ child ∈ subject_roles)) cs with
  | Some child => Some (text child)
  | None => speaker
  end.

Section Attributor.

(** The parser [nlp] and [str.lower] are not part of the repository. *)
Variable nlp : str → list Token.
Variable lower : str → str.

(** The loop over the tokens of [doc], threading [speaker]; [break] when
    [speaker] is true after a speech verb was examined. *)
Fixpoint token_loop (doc : list Token) (speaker : option str) : option str :=
  match doc with
  | [] => speaker
  | token :: doc' =>
      if bool_decide (lower (lemma_ token) ∈ speech_verbs) then
        let speaker' := children_loop (children token) speaker in
        if truthy speaker' then speaker' else token_loop doc' speaker'
      else token_loop doc' speaker
  end.

Definition detect_speaker_ml (sentence : str) : str * str :=
  let doc := nlp sentence in
  let dialogue : option str :=
    match findall_quoted 0 sentence with
    | first :: _ => Some (strip first)
    | [] => None
    end in
  let speaker := token_loop doc None in
  let speaker : str :=
    if truthy speaker then default [] speaker
    else if bool_decide (DQUOTE ∈ sentence) || bool_decide (SQUOTE ∈ sentence)
         then py "dialogue"
         else py "narrator" in
  let dialogue : str :=
    if truthy dialogue then default [] dialogue else sentence in
  (speaker, [DQUOTE] ++ dialogue ++ [DQUOTE]).

(** [detect_speaker]; [None] stands for the [IndexError] of
    [sentences[current_index]]. *)
Definition detect_speaker (current_index : Z) (sentences : list str)
  : option (str * str) :=
  sentence ← py_index sentences current_index;
  Some (detect_speaker_ml (strip sentence)).

(** No speech verb of the parse has a dependent in a subject role. *)
Definition no_reported_speaker (doc : list Token) : Prop :=
  ∀ token child,
    token ∈ doc → lower (lemma_ token) ∈ speech_verbs →
    child ∈ children token → dep_ child ∉ subject_roles.

(** [child] is the first of the children [cs] in a subject role. *)
Definition first_subject (cs : list Child) (child : Child) : Prop :=
  ∃ cs1 cs2,
    cs = cs1 ++ child :: cs2
    ∧ (∀ c, c ∈ cs1 → dep_ c ∉ subject_roles)
    ∧ dep_ child ∈ subject_roles.

(** No speech verb of the parse names a speaker: the first dependent in a
    subject role of each, if it has one, has an empty text. *)
Definition no_named_speaker (doc : list Token) : Prop :=
  ∀ token child,
    token ∈ doc → lower (lemma_ token) ∈ speech_verbs →
    first_subject (children token) child → text child = [].

End Attributor.

(** The reading of the utterance rule taken word for word: the first
    quoted substring is the content between the first quote character and
    the quote character that follows it. *)
Fixpoint until_quote (s : str) : option str :=
  match s with
  | [] => None
  | c :: s' => if is_quote c then Some [] else (c ::.) <$> until_quote s'
  end.

Fixpoint first_quoted (s : str) : option str :=
  match s with
  | [] => None
  | c :: s' => if is_quote c then until_quote s' else first_quoted s'
  end.

(** The utterance built around a candidate quoted substring. *)
Definition utterance_of (candidate : option str) (sentence : str) : str :=
  let body :=
    match strip <$> candidate with
    | Some (c :: d) => c :: d
    | _ => sentence
    end in
  [DQUOTE] ++ body ++ [DQUOTE].

(** *** Sample sentences and parses *)

(** [He said, "I am leaving now."] *)
Definition he_said : str :=
  py "He said, " ++ [DQUOTE] ++ py "I am leaving now." ++ [DQUOTE].


(** A parse in which [said] (lemma [say]) governs the subject [He]. *)
Definition parse_he_said : list Token :=
  [ mkToken (py "he") [];
    mkToken (py "say") [mkChild (py "nsubj") (py "He");
                        mkChild (py "ccomp") (py "leaving")];
    mkToken (py "leave") [mkChild (py "nsubj") (py "I")] ].

(** A parse of [The room was silent.]: no speech verb. *)
Definition parse_room : list Token :=
  [ mkToken (py "the") [];
    mkToken (py "room") [mkChild (py "det") (py "The")];
    mkToken (py "be") [mkChild (py "nsubj") (py "room");
                       mkChild (py "acomp") (py "silent")];
    mkToken (py "silent") [] ].

(** ** Audio, files and the sentence loop *)

(** [AudioSegment] belongs to pydub, which is not part of the repository.
    A segment is modelled by the sequence of what was concatenated into
    it: stretches of silence of a given duration (in ms) and recorded
    sound; [+] on segments is [++]. *)
Inductive Clip :=
| Silence (duration : Z)
| Sound (samples : list Z).

Abbreviation AudioSegment := (list Clip).

(** [AudioSegment.silent(duration=d)] *)
Definition silent (duration : Z) : AudioSegment := [Silence duration].

(** What happens between the call of [tts_to_file] and the end of the
    speed adjustment, for one sentence. *)
Inductive Synthesis :=
| TtsRaises (wrote_file : bool)
    (** [tts_to_file] raised; it may have left a file behind or not *)
| LoadRaises
    (** [tts_to_file] wrote the file, then [from_wav] or the speed
        adjustment raised *)
| Loaded (segment : AudioSegment).
    (** the file was written and loaded; [segment] is the segment after
        the speed adjustment *)

(** Lines printed on the console. *)
Inductive Event :=
| Assigned (voice character : str)
| Processing (speaker preview : str)
| Generated (path : str)
| GenerationError.

(** A call of [tts_to_file]: [text], [speaker], [file_path]. *)
Record TtsCall := mkTtsCall {
  call_text : str;
  call_speaker : str;
  call_file_path : str
}.

(** Everything a run of [generate_audio] reads and writes. *)
Record Run := mkRun {
  self : BookToSpeech;
  output_audio : AudioSegment;
  temp_files : list str;
  disk : gset str;                        (** the files that exist, each under
                                              the name of its directory entry *)
  exported : option (str * AudioSegment); (** what [export] wrote, and where *)
  stdout : list Event;
  tts_calls : list TtsCall                (** the calls of [tts_to_file] made *)
}.

(** What [output_audio.export] does with a path: it writes the file, or
    it raises (missing directory, empty name, full disk, ...), having left
    a file behind or not. *)
Inductive Export :=
| Written
| ExportRaises (wrote_file : bool).

(** How a statement ends: normally, or by raising. *)
Inductive Flow :=
| Normal (r : Run)
| Raised (r : Run).

(** [str(idx)] *)
Definition str_of_nat (n : nat) : str :=
  py (NilEmpty.string_of_uint (Nat.to_uint n)).

(** [f"output_audio/temp_{idx}.wav"] *)
Definition temp_path_of (idx : nat) : str :=
  py "output_audio/temp_" ++ str_of_nat idx ++ py ".wav".

(** [f"output_audio/{output_filename}"] *)
Definition output_path_of (output_filename : str) : str :=
  py "output_audio/" ++ output_filename.

(** The line printed by [assign_voice], if any: only the [try] block
    prints, and only when it completes. *)
Definition assign_voice_prints (character : str) (b : BookToSpeech) : list Event :=
  match character_voices b !! character with
  | Some _ => []
  | None =>
      match try_bind character b with
      | Some _ => [Assigned (assign_voice character b).1 character]
      | None => []
      end
  end.

(** [enumerate(sentences)] *)
Definition enumerate {A} (l : list A) : list (nat * A) := imap (λ i x, (i, x)) l.

(** The [except Exception] block. *)
Definition report_error (r : Run) : Run :=
  {| self := self r; output_audio := output_audio r;
     temp_files := temp_files r; disk := disk r; exported := exported r;
     stdout := stdout r ++ [GenerationError];
     tts_calls := tts_calls r |}.

Section Pipeline.

Variable nlp : str → list Token.
Variable lower : str → str.

(** The TTS engine and the loader, as a function of the arguments of
    [tts_to_file]; the speed is fixed for the run. *)
Variable engine : TtsCall → Synthesis.

(** The file system.  [resolve path] is the directory entry that [path]
    names: two paths name the same file exactly when they resolve to the
    same entry (the same name written with [./], with a doubled separator
    or, where the file system ignores it, in another letter case).
    [export_outcome path] is what an export to [path] does. *)
Variable resolve : str → str.
Variable export_outcome : str → Export.

(** The [finally] block: every path of [temp_files] that names an existing
    file has that file removed. *)
Definition remove_temp_files (r : Run) : Run :=
  {| self := self r; output_audio := output_audio r;
     temp_files := temp_files r;
     disk := fold_left
               (λ d f, if decide (resolve f ∈ d) then d ∖ {[resolve f]} else d)
               (temp_files r) (disk r);
     exported := exported r; stdout := stdout r; tts_calls := tts_calls r |}.

(** [output_audio.export(...)] followed by the success message; both
    stand inside the [try], so an export that raises ends the [try] block
    like any other exception. *)
Definition export (output_filename : str) (r : Run) : Flow :=
  let path := output_path_of output_filename in
  match export_outcome path with
  | Written =>
      Normal
        {| self := self r; output_audio := output_audio r;
           temp_files := temp_files r;
           disk := {[resolve path]} ∪ disk r;
           exported := Some (path, output_audio r);
           stdout := stdout r ++ [Generated path];
           tts_calls := tts_calls r |}
  | ExportRaises wrote_file =>
      Raised
        {| self := self r; output_audio := output_audio r;
           temp_files := temp_files r;
           disk := if wrote_file then {[resolve path]} ∪ disk r else disk r;
           exported := exported r; stdout := stdout r;
           tts_calls := tts_calls r |}
  end.

(** One turn of the loop over [enumerate(sentences)]. *)
Definition loop_body (sentences : list str) (idx : nat) (sentence : str) (r : Run)
  : Flow :=
  match strip sentence with
  | [] => Normal r
  | _ :: _ =>
      match detect_speaker nlp lower (Z.of_nat idx) sentences with
      | None => Raised r
      | Some (speaker, dialogue) =>
          let voice := (assign_voice speaker (self r)).1 in
          let self' := (assign_voice speaker (self r)).2 in
          let temp_path := temp_path_of idx in
          let out :=
            stdout r ++ assign_voice_prints speaker (self r)
                     ++ [Processing speaker (take 50 dialogue)] in
          let call := mkTtsCall dialogue voice temp_path in
          let calls := tts_calls r ++ [call] in
          match engine call with
          | TtsRaises wrote_file =>
              Raised
                {| self := self'; output_audio := output_audio r;
                   temp_files := temp_files r;
                   disk :=
                     if wrote_file then {[resolve temp_path]} ∪ disk r else disk r;
                   exported := exported r; stdout := out; tts_calls := calls |}
          | LoadRaises =>
              Raised
                {| self := self'; output_audio := output_audio r;
                   temp_files := temp_files r;
                   disk := {[resolve temp_path]} ∪ disk r;
                   exported := exported r; stdout := out; tts_calls := calls |}
          | Loaded segment =>
              Normal
                {| self := self';
                   output_audio := output_audio r ++ (segment ++ silent 200);
                   temp_files := temp_files r ++ [temp_path];
                   disk := {[resolve temp_path]} ∪ disk r;
                   exported := exported r; stdout := out; tts_calls := calls |}
          end
      end
  end.

Fixpoint for_loop (sentences : list str) (items : list (nat * str)) (r : Run)
  : Flow :=
  match items with
  | [] => Normal r
  | (idx, sentence) :: rest =>
      match loop_body sentences idx sentence r with
      | Normal r' => for_loop sentences rest r'
      | Raised r' => Raised r'
      end
  end.

(** The body of the [try]: the loop, then the export. *)
Definition try_block (sentences : list str) (output_filename : str) (start : Run)
  : Flow :=
  match for_loop sentences (enumerate sentences) start with
  | Normal r => export output_filename r
  | Raised r => Raised r
  end.

(** [generate_audio(text, output_filename)] on the registry [b] with the
    files [files] present; the run state it leaves behind. *)
Definition generate_audio (b : BookToSpeech) (files : gset str)
  (text : str) (output_filename : str) : Run :=
  let sentences := split_sentences text in
  let start :=
    {| self := b; output_audio := silent 100; temp_files := [];
       disk := files; exported := None; stdout := []; tts_calls := [] |} in
  remove_temp_files
    match try_block sentences output_filename start with
    | Normal r => r
    | Raised r => report_error r
    end.

End Pipeline.

(** [call] produced a segment. *)
Definition is_loaded (engine : TtsCall → Synthesis) (call : TtsCall) : Prop :=
  ∃ segment, engine call = Loaded segment.

(** The segment that [call] produced (empty if it produced none). *)
Definition segment_of (engine : TtsCall → Synthesis) (call : TtsCall)
  : AudioSegment :=
  match engine call with
  | Loaded segment => segment
  | _ => []
  end.

(** The track of the assembly equation read word for word: leading
    silence, then the segments with a trailing silence between
    consecutive ones, ending with the last segment. *)
Fixpoint interleave (segments : list AudioSegment) : AudioSegment :=
  match segments with
  | [] => []
  | [s] => s
  | s :: rest => s ++ silent 200 ++ interleave rest
  end.

Definition track_ending_with_segment (segments : list AudioSegment)
  : AudioSegment :=
  silent 100 ++ interleave segments.

(** The track as the loop builds it: every segment is followed by the
    trailing silence, the last one too. *)
Definition track_of (segments : list AudioSegment) : AudioSegment :=
  silent 100 ++ mjoin ((λ s, s ++ silent 200) <$> segments).

(** *** Sample engines *)

(** Every sentence is synthesized and loaded. *)
Definition engine_ok : TtsCall → Synthesis :=
  λ _, Loaded [Sound [1]].

(** [tts_to_file] raises for the sentence of index 0 and works for the
    others. *)
Definition engine_fails_first : TtsCall → Synthesis :=
  λ call,
    if bool_decide (call_file_path call = temp_path_of 0)
    then TtsRaises false
    else Loaded [Sound [1]].

(** [tts_to_file] writes its file, and loading it raises. *)
Definition engine_unloadable : TtsCall → Synthesis :=
  λ _, LoadRaises.

(** The parser finds no token. *)
Definition no_parse : str → list Token := λ _, [].

(** The file that an export to [path] leaves on disk, if any. *)
Definition export_leaves (resolve : str → str) (export_outcome : str → Export)
  (path : str) : gset str :=
  match export_outcome path with
  | Written => {[ resolve path ]}
  | ExportRaises wrote_file => if wrote_file then {[ resolve path ]} else ∅
  end.

(** *** Sample file systems *)

(** Every export writes its file. *)
Definition export_writes : str → Export := λ _, Written.

(** No export can write its file, and none leaves anything behind. *)
Definition export_refused : str → Export := λ _, ExportRaises false.

(** A file system on which [./name] and [name] are the same entry of
    [output_audio]; every other path is its own entry. *)
Definition resolve_dot (path : str) : str :=
  if bool_decide (take 15 path = py "output_audio/./")
  then py "output_audio/" ++ drop 15 path
  else path.

(** ** Further notions used in the properties *)

(** The pool lookup of [assign_voice] would succeed in [self]. *)
Definition cursor_valid (self : BookToSpeech) : Prop :=
  is_Some (py_index (available_voices self) (next_voice_index self)).

(** A registry whose pool is empty, as a caller could set it up. *)
Definition registry_without_pool : BookToSpeech :=
  {| available_voices := [];
     character_voices := {[ narrator := p225 ]};
     next_voice_index := 1 |}.

(** The characters of [s] that are not whitespace, in order. *)
Definition visible (s : str) : str := filter (λ c, isspace c = false) s.


(** [call] produced a segment, as a test. *)
Definition loaded (engine : TtsCall → Synthesis) (call : TtsCall) : bool :=
  match engine call with
  | Loaded _ => true
  | _ => false
  end.

(** [call] left its file on disk: [tts_to_file] wrote it before returning
    or before raising. *)
Definition leaves_file (engine : TtsCall → Synthesis) (call : TtsCall) : bool :=
  match engine call with
  | TtsRaises wrote_file => wrote_file
  | LoadRaises => true
  | Loaded _ => true
  end.

(** The sentences kept by the loop, each with the index of its piece in
    [enumerate(sentences)]. *)
Definition kept_items (items : list (nat * str)) : list (nat * str) :=
  omap (λ item, (λ sentence, (item.1, sentence)) <$> kept_sentence item.2) items.

(** The work planned for a text: for each kept sentence, the speaker
    label, the utterance and the temporary file of the call to come. *)
Record Planned := mkPlanned {
  planned_label : str;
  planned_text : str;
  planned_file_path : str
}.

Definition plan_item (nlp : str → list Token) (lower : str → str)
  (item : nat * str) : Planned :=
  {| planned_label := (detect_speaker_ml nlp lower item.2).1;
     planned_text := (detect_speaker_ml nlp lower item.2).2;
     planned_file_path := temp_path_of item.1 |}.

Definition plan (nlp : str → list Token) (lower : str → str) (text : str)
  : list Planned :=
  plan_item nlp lower <$> kept_items (enumerate (split_sentences text)).

(** [call] carries out [p]. *)
Definition carries_out (p : Planned) (call : TtsCall) : Prop :=
  call_text call = planned_text p ∧ call_file_path call = planned_file_path p.

(** ** Text extraction ([extract_text_from_pdf]) *)

Definition LSQUO : N := 0x2018.
Definition RSQUO : N := 0x2019.
Definition SPACE : N := 32.

(** The first substitution: each of the two curly single quotes becomes a
    double quote. *)
Definition straighten_quotes (text : str) : str :=
  (λ c, if ((c =? LSQUO) || (c =? RSQUO))%N then DQUOTE else c) <$> text.

(** The class [[.,!?]]. *)
Definition is_punct (c : N) : bool :=
  ((c =? 46) || (c =? 44) || (c =? 33) || (c =? 63))%N.

(** The second substitution, [\s+([.,!?])] replaced by its group: a run
    of whitespace is dropped when one of [.,!?] follows it.  [pending] is
    the run of whitespace read and not yet written. *)
Fixpoint close_up (pending : str) (text : str) : str :=
  match text with
  | [] => pending
  | c :: rest =>
      if isspace c then close_up (pending ++ [c]) rest
      else if is_punct c then c :: close_up [] rest
      else pending ++ c :: close_up [] rest
  end.

(** The third substitution, [\n+] replaced by one space.  [in_run] tells
    whether the previous character was a line feed. *)
Fixpoint join_lines (in_run : bool) (text : str) : str :=
  match text with
  | [] => []
  | c :: rest =>
      if (c =? LF)%N then
        if in_run then join_lines true rest else SPACE :: join_lines true rest
      else c :: join_lines false rest
  end.

(** The three substitutions applied to the text of one page. *)
Definition normalize_page (text : str) : str :=
  join_lines false (close_up [] (straighten_quotes text)).

(** [" ".join(parts)] *)
Fixpoint join_with_space (parts : list str) : str :=
  match parts with
  | [] => []
  | [part] => part
  | part :: rest => part ++ SPACE :: join_with_space rest
  end.

(** [extract_text_from_pdf].  The document is what pdfplumber makes of the
    file: [None] when opening it raises, otherwise its pages, each with the
    result of [extract_text], [None] when the page yields no text (the
    first [re.sub] then raises [TypeError]).  Every exception is caught and
    turned into the result [None]. *)
Definition extract_text_from_pdf (pdf : option (list (option str))) : option str :=
  pages ← pdf;
  texts ← mapM id (take 3 pages);
  Some (join_with_space (normalize_page <$> texts)).

(** No whitespace character of [text] is immediately followed by one of
    [.,!?]. *)
Definition tight (text : str) : Prop :=
  ∀ a w p b, text = a ++ w :: p :: b → isspace w = true → is_punct p = false.

(** [text] begins with one of [.,!?]. *)
Definition starts_punct (text : str) : Prop :=
  match text with
  | p :: _ => is_punct p = true
  | [] => False
  end.

(** ** Chunking ([clean.py], [PDFToScript.chunk_text]) *)

(** One turn of the loop over the sentences; the state is [chunks] and
    [current_chunk]. *)
Definition chunk_step (chunk_size : Z) (state : list str * str) (sentence : str)
  : list str * str :=
  let chunks := state.1 in
  let current_chunk := state.2 in
  if len current_chunk + len sentence <? chunk_size then
    (chunks, current_chunk ++ (sentence ++ [SPACE]))
  else
    (match current_chunk with
     | [] => chunks
     | _ :: _ => chunks ++ [strip current_chunk]
     end,
     sentence ++ [SPACE]).

(** What follows the loop: the last chunk, if any. *)
Definition chunk_flush (state : list str * str) : list str :=
  match state.2 with
  | [] => state.1
  | _ :: _ => state.1 ++ [strip state.2]
  end.

(** [chunk_text(text, chunk_size)]; the pieces are those of the same
    [re.split] as in [generate_audio]. *)
Definition chunk_text (text : str) (chunk_size : Z) : list str :=
  chunk_flush (fold_left (chunk_step chunk_size) (split_sentences text) ([], [])).

(** What the loop of [chunk_text] maintains: every chunk written is
    shorter than [chunk_size] or is a single stripped sentence, and the
    chunk being built is empty or ends with the space the loop appends and
    is within the same bounds. *)
Definition chunk_ok (chunk_size : Z) (sentences : list str) (chunk : str) : Prop :=
  len chunk < chunk_size ∨ ∃ sentence, sentence ∈ sentences ∧ chunk = strip sentence.

Definition current_ok (chunk_size : Z) (sentences : list str) (current : str) : Prop :=
  current = []
  ∨ ∃ body, current = body ++ [SPACE]
      ∧ (len current ≤ chunk_size ∨ body ∈ sentences).

(** ** The script at the end of [sample.py] *)

(** [text = converter.extract_text_from_pdf(...)], then
    [generate_audio(text, "chapter_1.wav")] on the fresh converter if
    [text] is true (neither [None] nor empty).  [None] stands for the branch
    that prints that the PDF could not be processed; the summary of voices
    printed after a run is not modelled. *)
Definition main (nlp : str → list Token) (lower : str → str)
  (engine : TtsCall → Synthesis) (resolve : str → str)
  (export_outcome : str → Export) (pdf : option (list (option str)))
  (files : gset str) : option Run :=
  match extract_text_from_pdf pdf with
  | Some (c :: t) =>
      Some (generate_audio nlp lower engine resolve export_outcome init files
              (c :: t) (py "chapter_1.wav"))
  | _ => None
  end.

(** ** Text extraction for the script ([clean.py],
       [PDFToScript.extract_text_from_pdf]) *)

(** The first substitution: a line feed that is not followed by another
    line feed becomes a space. *)
Fixpoint unwrap_lines (text : str) : str :=
  match text with
  | [] => []
  | c :: rest =>
      if (c =? LF)%N then
        match rest with
        | next :: _ =>
            if (next =? LF)%N then c :: unwrap_lines rest
            else SPACE :: unwrap_lines rest
        | [] => SPACE :: unwrap_lines rest
        end
      else c :: unwrap_lines rest
  end.

(** The second substitution: a run of whitespace becomes one space.
    [in_run] tells whether the previous character was whitespace. *)
Fixpoint collapse_spaces (in_run : bool) (text : str) : str :=
  match text with
  | [] => []
  | c :: rest =>
      if isspace c then
        if in_run then collapse_spaces true rest
        else SPACE :: collapse_spaces true rest
      else c :: collapse_spaces false rest
  end.

(** The two substitutions applied to the text of one page. *)
Definition script_page (text : str) : str :=
  collapse_spaces false (unwrap_lines text).

(** [PDFToScript.extract_text_from_pdf], on the document as pdfplumber
    gives it (see [extract_text_from_pdf]); every page is read, each is
    followed by two line feeds, the whole is stripped, and any exception
    gives the empty text. *)
Definition script_text (pdf : option (list (option str))) : str :=
  match pdf ≫= mapM id with
  | Some texts => strip (mjoin ((λ t, script_page t ++ [LF; LF]) <$> texts))
  | None => []
  end.

(** In [text] every whitespace character is a space, and no two of them
    are adjacent. *)
Definition single_spaced (text : str) : Prop :=
  ∀ a w b, text = a ++ w :: b → isspace w = true →
    w = SPACE ∧ clean_start b.

(* ================================================================= *)
(** * Properties *)

(** ** The voice registry *)

(** *** Basic facts *)

Lemma assign_voice_bound character self :
  is_Some (character_voices (assign_voice_state character self) !! character).
Proof.
  unfold assign_voice_state.
  destruct (character_voices self !! character) as [v|] eqn:E.
  - rewrite E. eauto.
  - unfold try_bind, bind_fallback.
    destruct (py_index _ _); simpl; rewrite lookup_insert_eq; eauto.
Qed.

Lemma assign_voice_known character self v :
  character_voices self !! character = Some v →
  assign_voice character self = (v, self).
Proof.
  intros E. unfold assign_voice, assign_voice_state.
  rewrite E. simpl. by rewrite E.
Qed.

Lemma assign_voice_keeps character self l v :
  character_voices self !! l = Some v →
  character_voices (assign_voice character self).2 !! l = Some v.
Proof.
  intros E. unfold assign_voice, assign_voice_state. simpl.
  destruct (character_voices self !! character) as [w|] eqn:Ec; [done|].
  assert (character ≠ l) by congruence.
  unfold try_bind, bind_fallback.
  destruct (py_index _ _); simpl; by rewrite lookup_insert_ne.
Qed.

Lemma assign_voices_keeps labels self l v :
  character_voices self !! l = Some v →
  character_voices (assign_voices labels self) !! l = Some v.
Proof.
  revert self. induction labels as [|c labels IH]; intros self E; [done|].
  simpl. apply IH. by apply assign_voice_keeps.
Qed.

Lemma assign_voice_returns character self :
  character_voices (assign_voice character self).2 !! character
  = Some (assign_voice character self).1.
Proof.
  unfold assign_voice. simpl.
  destruct (assign_voice_bound character self) as [v ->]. done.
Qed.

(** C1: once [assign_voice label] has been called, a later call with the
    same label, whatever other labels were assigned in between, returns the
    voice of the first call and leaves the registry (bindings and cursor)
    exactly as it found it.  This holds from every registry state. *)
Theorem assign_voice_stable (self : BookToSpeech) (label : str) (between : list str) :
  let first := assign_voice label self in
  let later := assign_voices between first.2 in
  assign_voice label later = (first.1, later).
Proof.
  intros first later. apply assign_voice_known.
  apply assign_voices_keeps. apply assign_voice_returns.
Qed.

(** *** Registries reachable from [init] *)

Example first_seen_sample :
  first_seen [py "Ann"; narrator; py "Bob"; py "Ann"] = [py "Ann"; py "Bob"].
Proof. reflexivity. Qed.

Lemma first_seen_snoc labels l :
  first_seen (labels ++ [l]) = see (first_seen labels) l.
Proof. unfold first_seen. by rewrite fold_left_app. Qed.

Lemma assign_voices_snoc labels l self :
  assign_voices (labels ++ [l]) self
  = (assign_voice l (assign_voices labels self)).2.
Proof. unfold assign_voices. by rewrite fold_left_app. Qed.

Lemma first_seen_subseteq labels l : l ∈ first_seen labels → l ∈ labels.
Proof.
  induction labels as [|c labels IH] using rev_ind; [done|].
  rewrite first_seen_snoc, elem_of_app. unfold see. case_decide.
  - auto.
  - rewrite elem_of_app. tauto.
Qed.

Lemma len_voice_pool : len voice_pool = 10.
Proof. reflexivity. Qed.

Lemma py_index_nonneg {A} (l : list A) (i : Z) :
  0 ≤ i → py_index l i = l !! Z.to_nat i.
Proof. intros H. unfold py_index. by rewrite (proj2 (Z.leb_le 0 i) H). Qed.

Lemma tracks_init : tracks [] init.
Proof.
  split; simpl.
  - done.
  - constructor.
  - apply lookup_singleton_eq.
  - intros i l Hi. by rewrite lookup_nil in Hi.
  - intros l [v Hv]. apply lookup_singleton_Some in Hv as [-> _]. by left.
  - done.
Qed.

Lemma tracks_known seen self l :
  tracks seen self → (l = narrator ∨ l ∈ seen) →
  is_Some (character_voices self !! l).
Proof.
  intros T [->|Hin].
  - rewrite (tr_narrator _ _ T). eauto.
  - apply list_elem_of_lookup in Hin as [i Hi].
    rewrite (tr_seen _ _ T _ _ Hi).
    apply lookup_lt_is_Some. change (length voice_pool) with 10%nat.
    pose proof (Z.mod_pos_bound (Z.of_nat i + 1) 10). lia.
Qed.

(** What a call does to a tracked registry whose label is new. *)
Lemma tracks_fresh seen self l :
  tracks seen self → ¬ (l = narrator ∨ l ∈ seen) →
  ∃ v, voice_pool !! Z.to_nat ((len seen + 1) `mod` 10) = Some v ∧
       try_bind l self = Some
         {| available_voices := voice_pool;
            character_voices := <[l := v]> (character_voices self);
            next_voice_index := (next_voice_index self + 1) `mod` 10 |} ∧
       character_voices self !! l = None.
Proof.
  intros T Hnew.
  assert (character_voices self !! l = None) as Hnone.
  { destruct (character_voices self !! l) eqn:E; [|done].
    destruct Hnew. apply (tr_dom _ _ T). eauto. }
  pose proof (Z.mod_pos_bound (len seen + 1) 10) as Hb.
  destruct (lookup_lt_is_Some_2 voice_pool (Z.to_nat ((len seen + 1) `mod` 10)))
    as [v Hv].
  { change (length voice_pool) with 10%nat. lia. }
  exists v. split; [done|]. split; [|done].
  unfold try_bind. rewrite (tr_pool _ _ T), (tr_next _ _ T).
  rewrite py_index_nonneg by lia. rewrite Hv. by rewrite len_voice_pool.
Qed.

Lemma tracks_step seen self l :
  tracks seen self → tracks (see seen l) (assign_voice l self).2.
Proof.
  intros T. unfold see. case_decide as Hl.
  - destruct (tracks_known _ _ _ T Hl) as [v Hv].
    by rewrite (assign_voice_known _ _ _ Hv).
  - destruct (tracks_fresh _ _ _ T Hl) as (v & Hv & Hbind & Hnone).
    unfold assign_voice, assign_voice_state. rewrite Hnone, Hbind. simpl.
    assert (l ≠ narrator ∧ l ∉ seen) as [Hn Hs] by tauto.
    split; simpl.
    + done.
    + apply NoDup_app. split; [apply (tr_nodup _ _ T)|].
      split; [|apply NoDup_singleton].
      intros c Hc Hcl. apply list_elem_of_singleton in Hcl as ->. done.
    + rewrite lookup_insert_ne by done. apply (tr_narrator _ _ T).
    + intros i c Hi. apply lookup_app_Some in Hi as [Hi|[Hge Hi]].
      * assert (l ≠ c). { intros ->. apply Hs. by eapply list_elem_of_lookup_2. }
        rewrite lookup_insert_ne by done. by apply (tr_seen _ _ T).
      * apply list_lookup_singleton_Some in Hi as [Hi <-].
        rewrite lookup_insert_eq, <- Hv. do 3 f_equal. unfold len. lia.
    + intros c Hc. destruct (decide (c = l)) as [->|Hne]; [set_solver|].
      rewrite lookup_insert_ne in Hc by done.
      destruct (tr_dom _ _ T _ Hc); set_solver.
    + rewrite (tr_next _ _ T). unfold len. rewrite length_app. simpl.
      rewrite Nat2Z.inj_add. simpl (Z.of_nat 1).
      by rewrite Zplus_mod_idemp_l.
Qed.

Lemma tracks_assign_voices labels :
  tracks (first_seen labels) (assign_voices labels init).
Proof.
  induction labels as [|l labels IH] using rev_ind; [apply tracks_init|].
  rewrite first_seen_snoc, assign_voices_snoc. by apply tracks_step.
Qed.

Lemma voice_pool_NoDup : NoDup voice_pool.
Proof. compute_done. Qed.

Lemma tracks_fresh_voice seen self l :
  tracks seen self → l ≠ narrator → l ∉ seen →
  py_index voice_pool ((len seen + 1) `mod` 10) = Some (assign_voice l self).1
  ∧ next_voice_index (assign_voice l self).2
    = (next_voice_index self + 1) `mod` len (available_voices self).
Proof.
  intros T Hn Hs.
  destruct (tracks_fresh seen self l T) as (v & Hv & Hbind & Hnone); [tauto|].
  pose proof (Z.mod_pos_bound (len seen + 1) 10).
  rewrite py_index_nonneg by lia.
  unfold assign_voice, assign_voice_state. rewrite Hnone, Hbind. simpl.
  rewrite lookup_insert_eq. simpl.
  by rewrite (tr_pool _ _ T), len_voice_pool.
Qed.

(** C2: from a fresh registry, a label that is not ["narrator"] and was not
    seen before, arriving when fewer than nine such labels have been seen,
    receives the pool voice that follows the ones already handed out
    (slot [k + 1] for the [k + 1]-th new label), a voice that no label bound
    so far holds; the cursor moves to [(next_voice_index + 1) mod] the pool
    size, and the label becomes the last of the labels seen. *)
Theorem first_encounter_distinct (pre : list str) (label : str) :
  label ≠ narrator → label ∉ pre → (length (first_seen pre) < 9)%nat →
  let self := assign_voices pre init in
  let after := assign_voice label self in
  voice_pool !! S (length (first_seen pre)) = Some after.1
  ∧ (∀ l w, character_voices self !! l = Some w → w ≠ after.1)
  ∧ next_voice_index after.2
    = (next_voice_index self + 1) `mod` len (available_voices self)
  ∧ first_seen (pre ++ [label]) = first_seen pre ++ [label].
Proof.
  intros Hn Hpre Hk self after.
  pose proof (tracks_assign_voices pre) as T. fold self in T.
  assert (label ∉ first_seen pre) as Hs.
  { intros Hin. by apply Hpre, first_seen_subseteq. }
  destruct (tracks_fresh_voice _ _ _ T Hn Hs) as [Hv Hnext]. fold after in Hv, Hnext.
  assert ((len (first_seen pre) + 1) `mod` 10 = len (first_seen pre) + 1) as Hmod.
  { apply Z.mod_small. unfold len. lia. }
  rewrite Hmod, py_index_nonneg in Hv by (unfold len; lia).
  replace (Z.to_nat (len (first_seen pre) + 1)) with (S (length (first_seen pre)))
    in Hv by (unfold len; lia).
  split; [done|]. split; [|split; [done|]].
  - intros l w Hl ->.
    destruct (tr_dom _ _ T l) as [->|Hin]; [eauto|..].
    + rewrite (tr_narrator _ _ T) in Hl.
      assert (voice_pool !! 0%nat = Some after.1) as H0 by (by rewrite <- Hl).
      pose proof (NoDup_lookup _ _ _ _ voice_pool_NoDup H0 Hv). lia.
    + apply list_elem_of_lookup in Hin as [i Hi].
      pose proof (lookup_lt_Some _ _ _ Hi) as Hlt.
      rewrite (tr_seen _ _ T _ _ Hi) in Hl.
      rewrite Z.mod_small in Hl by lia.
      pose proof (NoDup_lookup _ _ _ _ voice_pool_NoDup Hl Hv). lia.
  - rewrite first_seen_snoc. unfold see. rewrite decide_False; [done|tauto].
Qed.

Lemma first_encounter_distinct_witness :
  let pre := [py "Ann"; narrator; py "Bob"; py "Ann"] in
  voice_pool !! 3%nat = Some (assign_voice (py "Cy") (assign_voices pre init)).1
  ∧ (assign_voice (py "Cy") (assign_voices pre init)).1 = py "p228".
Proof.
  split; [|reflexivity].
  apply (first_encounter_distinct [py "Ann"; narrator; py "Bob"; py "Ann"] (py "Cy")).
  - compute_done.
  - compute_done.
  - vm_compute. lia.
Defined.

(** C9: in every registry reached from [init] by calls of [assign_voice],
    the pool is the non-empty ten-voice pool and [next_voice_index] is a
    valid index into it, so the pool lookup succeeds and the [try] block
    completes: the [except IndexError] branch is never entered. *)
Theorem fallback_unreachable (labels : list str) (character : str) :
  let self := assign_voices labels init in
  available_voices self ≠ []
  ∧ 0 ≤ next_voice_index self < len (available_voices self)
  ∧ is_Some (py_index (available_voices self) (next_voice_index self))
  ∧ is_Some (try_bind character self).
Proof.
  intros self. pose proof (tracks_assign_voices labels) as T. fold self in T.
  pose proof (Z.mod_pos_bound (len (first_seen labels) + 1) 10) as Hb.
  rewrite (tr_pool _ _ T), (tr_next _ _ T), len_voice_pool.
  assert (is_Some (py_index voice_pool ((len (first_seen labels) + 1) `mod` 10)))
    as [v Hv].
  { rewrite py_index_nonneg by lia. apply lookup_lt_is_Some.
    change (length voice_pool) with 10%nat. lia. }
  split; [done|]. split; [lia|]. split; [eauto|].
  unfold try_bind. rewrite (tr_pool _ _ T), (tr_next _ _ T), Hv. eauto.
Qed.

(** C10: the pool has ten voices, ["narrator"] is bound to the first of
    them, ["p225"], from construction on, and the cursor starts at 1; so the
    tenth distinct label other than ["narrator"] is bound, through the wrap
    of the cursor to slot 0, to ["p225"], while ["narrator"] still holds
    that same voice. *)
Theorem tenth_label_gets_narrator_voice (pre : list str) (label : str) :
  label ≠ narrator → label ∉ pre → length (first_seen pre) = 9%nat →
  let self := assign_voices pre init in
  len voice_pool = 10
  ∧ py_index voice_pool 0 = Some p225
  ∧ character_voices init !! narrator = Some p225
  ∧ next_voice_index init = 1
  ∧ next_voice_index self = 0
  ∧ (assign_voice label self).1 = p225
  ∧ character_voices (assign_voice label self).2 !! narrator = Some p225.
Proof.
  intros Hn Hpre Hk self.
  pose proof (tracks_assign_voices pre) as T. fold self in T.
  assert (label ∉ first_seen pre) as Hs.
  { intros Hin. by apply Hpre, first_seen_subseteq. }
  destruct (tracks_fresh_voice _ _ _ T Hn Hs) as [Hv _].
  unfold len in Hv. rewrite Hk in Hv. simpl in Hv.
  split; [done|]. split; [done|]. split; [apply (tr_narrator _ _ tracks_init)|].
  split; [done|]. split; [|split].
  - rewrite (tr_next _ _ T). unfold len. by rewrite Hk.
  - change (Some p225 = Some (assign_voice label self).1) in Hv. congruence.
  - apply assign_voice_keeps, (tr_narrator _ _ T).
Qed.

Lemma tenth_label_gets_narrator_voice_witness :
  let pre := py <$> ["a"; "b"; "c"; "d"; "e"; "f"; "g"; "h"; "i"]%string in
  (assign_voice (py "j") (assign_voices pre init)).1 = p225.
Proof.
  intros pre.
  apply (tenth_label_gets_narrator_voice pre (py "j")).
  - compute_done.
  - compute_done.
  - reflexivity.
Defined.

(** ** Sentence segmentation *)

Example split_trailing_gap :
  split_sentences (py "Hi.  ") = [py "Hi."; []].
Proof. reflexivity. Qed.

Example split_inner_space :
  split_sentences (py " a  b.c") = [py " a  b.c"].
Proof. reflexivity. Qed.

Lemma is_terminal_not_space c : is_terminal c = true → isspace c = false.
Proof.
  unfold is_terminal. intros H.
  repeat (apply orb_prop in H as [H|H]); apply N.eqb_eq in H as ->; reflexivity.
Qed.

Lemma split_scan_gap_flag after_terminal cur text :
  split_scan true after_terminal cur text = split_scan true false cur text.
Proof. destruct text as [|c rest]; [done|]. simpl. by destruct (isspace c). Qed.

Lemma split_scan_gap ws cur text :
  Forall (λ w, isspace w = true) ws →
  split_scan true false cur (ws ++ text) = split_scan true false cur text.
Proof.
  induction 1 as [|w ws Hw _ IH]; [done|]. simpl. by rewrite Hw.
Qed.

Lemma split_scan_leave_gap after_terminal cur text :
  clean_start text →
  split_scan true false cur text = split_scan false after_terminal cur text.
Proof.
  destruct text as [|c rest]; [done|]. simpl. by intros ->.
Qed.

Lemma split_scan_at_boundary in_gap after_terminal cur a c ws b :
  is_terminal c = true → ws ≠ [] → Forall (λ w, isspace w = true) ws →
  clean_start b →
  split_scan in_gap after_terminal cur ((a ++ [c]) ++ ws ++ b)
  = split_scan in_gap after_terminal cur (a ++ [c]) ++ split_sentences b.
Proof.
  intros Hc Hne Hws Hb. revert in_gap after_terminal cur.
  induction a as [|x a IH]; intros in_gap after_terminal cur.
  - simpl. rewrite (is_terminal_not_space _ Hc), Hc.
    destruct Hws as [|w ws Hw Hws]; [done|]. simpl. rewrite Hw.
    rewrite split_scan_gap by done.
    by rewrite (split_scan_leave_gap false).
  - simpl. destruct (isspace x), in_gap, after_terminal; simpl;
      by rewrite IH.
Qed.

Lemma boundary_free_tail c text : boundary_free (c :: text) → boundary_free text.
Proof. intros H a x w b ->. by apply (H (c :: a) x w b). Qed.

Lemma split_scan_boundary_free after_terminal cur text :
  boundary_free text → (after_terminal = true → clean_start text) →
  split_scan false after_terminal cur text = [cur ++ text].
Proof.
  revert after_terminal cur.
  induction text as [|c rest IH]; intros after_terminal cur Hfree Hstart.
  - simpl. by rewrite app_nil_r.
  - simpl. destruct (isspace c) eqn:Ec.
    + destruct after_terminal.
      * specialize (Hstart eq_refl). simpl in Hstart. congruence.
      * rewrite IH; [by rewrite <- app_assoc|by eapply boundary_free_tail|done].
    + rewrite IH; [by rewrite <- app_assoc|by eapply boundary_free_tail|].
      intros Hc. destruct rest as [|w b]; [done|]. simpl.
      by apply (Hfree [] c w b).
Qed.

Lemma lstrip_clean_start s : clean_start (lstrip s).
Proof.
  induction s as [|c s IH]; [done|]. simpl.
  destruct (isspace c) eqn:E; [done|]. simpl. done.
Qed.

Lemma lstrip_suffix s : ∃ p, s = p ++ lstrip s.
Proof.
  induction s as [|c s [p IH]]; [by exists []|]. simpl.
  destruct (isspace c); [|by exists []].
  exists (c :: p). simpl. by rewrite <- IH.
Qed.

Lemma strip_clean_end s : clean_start (reverse (strip s)).
Proof.
  unfold strip. destruct (lstrip_suffix (rstrip s)) as [p Hp].
  destruct (lstrip (rstrip s)) as [|c t] eqn:E; [done|].
  pose proof (lstrip_clean_start (reverse s)) as Hc.
  assert (reverse (rstrip s) = lstrip (reverse s)) as Hr.
  { unfold rstrip. by rewrite reverse_involutive. }
  rewrite <- Hr, Hp, reverse_app in Hc.
  destruct (reverse (c :: t)) as [|x r] eqn:Er; [|done].
  apply (f_equal length) in Er. rewrite length_reverse in Er. done.
Qed.

Lemma kept_sentence_Some piece sentence :
  kept_sentence piece = Some sentence →
  sentence = strip piece ∧ sentence ≠ [].
Proof.
  unfold kept_sentence. destruct (strip piece); [done|].
  intros [= <-]. done.
Qed.

(** C8: the segmenter cuts the text exactly at the whitespace that
    immediately follows one of [.!?]: a text without such a place is a single
    piece, and a text made of a part ending in [.!?], a non-empty run of
    whitespace and a rest splits into the pieces of the part followed by the
    pieces of the rest, the run being dropped.  The sentences kept are the
    stripped pieces, each non-empty with no whitespace at either end.  The
    text ["He said hi. She left! Did she go?"] gives exactly its three
    sentences, in order. *)
Theorem segmentation :
  (∀ text, boundary_free text → split_sentences text = [text])
  ∧ (∀ a c ws b,
       is_terminal c = true → ws ≠ [] → Forall (λ w, isspace w = true) ws →
       clean_start b →
       split_sentences ((a ++ [c]) ++ ws ++ b)
       = split_sentences (a ++ [c]) ++ split_sentences b)
  ∧ (∀ text sentence, sentence ∈ segment_sentences text →
       (∃ piece, piece ∈ split_sentences text ∧ sentence = strip piece)
       ∧ sentence ≠ []
       ∧ clean_start sentence ∧ clean_start (reverse sentence))
  ∧ (∀ text piece, piece ∈ split_sentences text → strip piece ≠ [] →
       strip piece ∈ segment_sentences text)
  ∧ segment_sentences (py "He said hi. She left! Did she go?")
    = [py "He said hi."; py "She left!"; py "Did she go?"].
Proof.
  split; [|split; [|split; [|split]]].
  - intros text Hfree. unfold split_sentences.
    by rewrite split_scan_boundary_free.
  - intros a c ws b Hc Hne Hws Hb. by apply split_scan_at_boundary.
  - intros text sentence Hin. unfold segment_sentences in Hin.
    apply list_elem_of_omap in Hin as (piece & Hpiece & Hkept).
    apply kept_sentence_Some in Hkept as [-> Hne].
    split; [eauto|]. split; [done|]. split.
    + apply lstrip_clean_start.
    + apply strip_clean_end.
  - intros text piece Hin Hne. unfold segment_sentences.
    apply list_elem_of_omap. exists piece. split; [done|].
    unfold kept_sentence. by destruct (strip piece).
  - reflexivity.
Qed.

Lemma segmentation_witness :
  split_sentences (py "No stop here") = [py "No stop here"]
  ∧ split_sentences (py "Hi.  Yo") = [py "Hi."; py "Yo"]
  ∧ py "Yo" ≠ [].
Proof.
  destruct segmentation as (Hone & Hcut & Hkept & _).
  split; [|split].
  - apply Hone. intros a c w b E Hc.
    assert (c ∈ py "No stop here") as Hin.
    { rewrite E, elem_of_app, elem_of_cons. auto. }
    vm_compute in Hin.
    repeat (apply elem_of_cons in Hin as [->|Hin]; [by vm_compute in Hc|]).
    by apply elem_of_nil in Hin.
  - apply (Hcut (py "Hi") 46%N (py "  ") (py "Yo")).
    + reflexivity.
    + done.
    + by repeat constructor.
    + reflexivity.
  - apply (Hkept (py "Hi.  Yo") (py "Yo")). compute_done.
Defined.

(** ** The speaker attributor *)

Section AttributorFacts.

Variable nlp : str → list Token.
Variable lower : str → str.

Lemma children_loop_no_subject cs speaker :
  (∀ child, child ∈ cs → dep_ child ∉ subject_roles) →
  children_loop cs speaker = speaker.
Proof.
  intros H. unfold children_loop.
  destruct (find _ cs) as [child|] eqn:E; [|done].
  apply find_some in E as [Hin Hdep].
  apply bool_decide_eq_true in Hdep.
  apply list_elem_of_In in Hin. by destruct (H child Hin).
Qed.

Lemma token_loop_no_speaker doc :
  no_reported_speaker lower doc → token_loop lower doc None = None.
Proof.
  induction doc as [|token doc IH]; intros H; [done|].
  assert (no_reported_speaker lower doc) as Hdoc.
  { intros t c Ht. apply H. by right. }
  simpl. case_bool_decide as Hverb; [|by apply IH].
  rewrite children_loop_no_subject; [by apply IH|].
  intros child Hchild. apply (H token child); [by left|done|done].
Qed.

(** C6: when no speech verb of the parse has a dependent in a subject
    role, the speaker label is ["dialogue"] if the sentence contains a
    double or a single quote character, and ["narrator"] otherwise. *)
Theorem sentinel_policy (sentence : str) :
  no_reported_speaker lower (nlp sentence) →
  (detect_speaker_ml nlp lower sentence).1
  = if bool_decide (DQUOTE ∈ sentence ∨ SQUOTE ∈ sentence)
    then py "dialogue" else py "narrator".
Proof.
  intros H. unfold detect_speaker_ml. simpl.
  rewrite token_loop_no_speaker by done. simpl.
  repeat case_bool_decide; simpl; tauto.
Qed.

Example findall_quoted_sample :
  findall_quoted 0 (py "'x' y 'z' '") = [py "x"; py "z"].
Proof. reflexivity. Qed.

Lemma lazy_group_Some s d :
  lazy_group s = Some d →
  ∃ q b, s = d ++ q :: b ∧ is_quote q = true
         ∧ Forall (λ c, is_quote c = false ∧ c ≠ LF) d.
Proof.
  revert d. induction s as [|c s IH]; intros d; [done|]. simpl.
  destruct (is_quote c) eqn:Eq.
  - intros [= <-]. exists c, s. by repeat split.
  - destruct (c =? LF)%N eqn:El; [done|].
    destruct (lazy_group s) as [g|]; [|done]. intros [= <-].
    destruct (IH g eq_refl) as (q & b & -> & Hq & Hg).
    exists q, b. repeat split; [done|].
    constructor; [|done]. split; [done|]. by apply N.eqb_neq.
Qed.

Lemma match_at_Some s d :
  match_at s = Some d →
  ∃ q1 q2 b, s = q1 :: d ++ q2 :: b ∧ is_quote q1 = true ∧ is_quote q2 = true
             ∧ Forall (λ c, is_quote c = false ∧ c ≠ LF) d.
Proof.
  destruct s as [|c s]; [done|]. simpl.
  destruct (is_quote c) eqn:Eq; [|done]. intros H.
  destruct (lazy_group_Some _ _ H) as (q2 & b & -> & Hq2 & Hd).
  by exists c, q2, b.
Qed.

(** The first match is at the leftmost position where the pattern
    matches. *)
Lemma first_match_leftmost s d :
  head (findall_quoted 0 s) = Some d →
  ∃ a b, s = a ++ b ∧ match_at b = Some d
         ∧ ∀ a1 a2, a = a1 ++ a2 → a2 ≠ [] → match_at (a2 ++ b) = None.
Proof.
  induction s as [|c s IH]; [done|].
  change (findall_quoted 0 (c :: s)) with
    (match match_at (c :: s) with
     | Some g => g :: findall_quoted (S (length g)) s
     | None => findall_quoted 0 s
     end).
  destruct (match_at (c :: s)) as [g|] eqn:E.
  - intros [= <-]. exists [], (c :: s). repeat split; [done|].
    intros a1 a2 Ha. by destruct a1, a2.
  - intros H. destruct (IH H) as (a & b & -> & Hb & Hleft).
    exists (c :: a), b. repeat split; [done|].
    intros [|x a1] a2 Ha Hne; simpl in Ha.
    + by subst a2.
    + injection Ha as -> ->. by apply (Hleft a1 a2).
Qed.

Lemma no_match_anywhere s :
  head (findall_quoted 0 s) = None → ∀ a b, s = a ++ b → match_at b = None.
Proof.
  induction s as [|c s IH].
  - intros _ a b Hab. symmetry in Hab. by apply app_eq_nil in Hab as [_ ->].
  - change (findall_quoted 0 (c :: s)) with
      (match match_at (c :: s) with
       | Some g => g :: findall_quoted (S (length g)) s
       | None => findall_quoted 0 s
       end).
    destruct (match_at (c :: s)) as [g|] eqn:E; [done|].
    intros H [|x a] b Hab; simpl in Hab.
    + by subst b.
    + injection Hab as -> ->. by apply (IH H a b).
Qed.

Lemma until_quote_None s : until_quote s = None → first_quoted s = None.
Proof.
  induction s as [|c s IH]; [done|]. simpl.
  destruct (is_quote c); [done|].
  destruct (until_quote s); [done|]. intros _. by apply IH.
Qed.

Lemma lazy_group_one_line s : LF ∉ s → lazy_group s = until_quote s.
Proof.
  induction s as [|c s IH]; [done|]. intros H.
  apply not_elem_of_cons in H as [Hc Hs]. simpl.
  destruct (is_quote c); [done|].
  destruct (N.eqb_spec c LF) as [->|_]; [done|]. by rewrite IH.
Qed.

Lemma first_match_one_line s :
  LF ∉ s → head (findall_quoted 0 s) = first_quoted s.
Proof.
  induction s as [|c s IH]; [done|]. intros H.
  apply not_elem_of_cons in H as [Hc Hs].
  change (findall_quoted 0 (c :: s)) with
    (match match_at (c :: s) with
     | Some g => g :: findall_quoted (S (length g)) s
     | None => findall_quoted 0 s
     end).
  simpl. destruct (is_quote c).
  - rewrite lazy_group_one_line by done.
    destruct (until_quote s) as [g|] eqn:E; [done|].
    rewrite IH by done. by apply until_quote_None.
  - by apply IH.
Qed.

Lemma detect_speaker_ml_utterance sentence :
  (detect_speaker_ml nlp lower sentence).2
  = utterance_of (head (findall_quoted 0 sentence)) sentence.
Proof.
  unfold detect_speaker_ml, utterance_of. simpl.
  destruct (findall_quoted 0 sentence) as [|g gs]; [done|]. simpl.
  by destruct (strip g).
Qed.

(** X29: the utterance is the candidate, stripped, when it exists and is
    non-empty after stripping, and the whole sentence otherwise, put between
    one added pair of double quotes; it is never empty, and its body is
    non-empty for a non-empty sentence.  The candidate is the first match of
    the pattern: the content strictly between two quote characters, free of
    quote characters and of line feeds, at the leftmost place where the
    pattern matches; a sentence where it matches nowhere has no candidate.
    In a sentence without a line feed, as the text extraction produces them,
    the candidate is the content between the first quote character and the
    quote character that follows it. *)
Theorem utterance_construction (sentence : str) :
  let candidate := head (findall_quoted 0 sentence) in
  let utterance := (detect_speaker_ml nlp lower sentence).2 in
  utterance = utterance_of candidate sentence
  ∧ (∃ body, utterance = [DQUOTE] ++ body ++ [DQUOTE]
       ∧ (sentence ≠ [] → body ≠ [])
       ∧ (body = sentence ∨ ∃ d, candidate = Some d ∧ body = strip d))
  ∧ utterance ≠ []
  ∧ (∀ d, candidate = Some d →
       ∃ a q1 q2 b,
         sentence = a ++ q1 :: d ++ q2 :: b
         ∧ is_quote q1 = true ∧ is_quote q2 = true
         ∧ Forall (λ c, is_quote c = false ∧ c ≠ LF) d
         ∧ ∀ a1 a2, a = a1 ++ a2 → a2 ≠ [] →
             match_at (a2 ++ q1 :: d ++ q2 :: b) = None)
  ∧ (candidate = None → ∀ a b, sentence = a ++ b → match_at b = None)
  ∧ (LF ∉ sentence → candidate = first_quoted sentence).
Proof.
  intros candidate utterance.
  assert (utterance = utterance_of candidate sentence) as Hu
    by apply detect_speaker_ml_utterance.
  split; [done|]. split; [|split; [|split; [|split]]].
  - rewrite Hu. unfold utterance_of.
    destruct candidate as [d|] eqn:Ec; simpl.
    + destruct (strip d) as [|c t] eqn:Es.
      * exists sentence. eauto.
      * exists (c :: t). repeat split; [done|]. right. exists d. by rewrite Es.
    + exists sentence. eauto.
  - rewrite Hu. done.
  - intros d Hd.
    destruct (first_match_leftmost _ _ Hd) as (a & b' & Hs & Hm & Hleft).
    destruct (match_at_Some _ _ Hm) as (q1 & q2 & b & -> & Hq1 & Hq2 & Hfree).
    by exists a, q1, q2, b.
  - apply no_match_anywhere.
  - apply first_match_one_line.
Qed.

End AttributorFacts.

Lemma sentinel_policy_witness :
  (detect_speaker_ml (λ _, parse_room) id (py "The room was silent.")).1
  = py "narrator".
Proof.
  apply (sentinel_policy (λ _, parse_room) id (py "The room was silent.")).
  intros token child Htoken Hverb.
  unfold parse_room in Htoken.
  repeat (apply elem_of_cons in Htoken as [->|Htoken];
          [exfalso; revert Hverb; compute_done|]).
  by apply elem_of_nil in Htoken.
Defined.

Example attribution_he_said :
  detect_speaker_ml (λ _, parse_he_said) id he_said
  = (py "He", [DQUOTE] ++ py "I am leaving now." ++ [DQUOTE]).
Proof. reflexivity. Qed.

Example attribution_unparsed_quote :
  detect_speaker_ml (λ _, []) id he_said
  = (py "dialogue", [DQUOTE] ++ py "I am leaving now." ++ [DQUOTE]).
Proof. reflexivity. Qed.

Lemma utterance_construction_witness :
  head (findall_quoted 0 he_said) = first_quoted he_said
  ∧ first_quoted he_said = Some (py "I am leaving now.")
  ∧ (detect_speaker_ml (λ _, parse_he_said) id he_said).2
    = [DQUOTE] ++ py "I am leaving now." ++ [DQUOTE].
Proof.
  destruct (utterance_construction (λ _, parse_he_said) id he_said)
    as (Hu & _ & _ & _ & _ & Hline).
  split; [|split].
  - apply Hline. compute_done.
  - reflexivity.
  - rewrite Hu. reflexivity.
Defined.


(** ** The sentence loop *)

Section PipelineFacts.

Variable nlp : str → list Token.
Variable lower : str → str.
Variable engine : TtsCall → Synthesis.
Variable resolve : str → str.
Variable export_outcome : str → Export.

Lemma detect_speaker_at (sentences : list str) (idx : nat) (s : str) :
  sentences !! idx = Some s →
  detect_speaker nlp lower (Z.of_nat idx) sentences
  = Some (detect_speaker_ml nlp lower (strip s)).
Proof.
  intros H. unfold detect_speaker.
  rewrite py_index_nonneg by lia. by rewrite Nat2Z.id, H.
Qed.

Lemma is_loaded_segment call segment :
  engine call = Loaded segment →
  is_loaded engine call ∧ segment_of engine call = segment.
Proof. intros H. split; [by exists segment|]. unfold segment_of. by rewrite H. Qed.

(** One turn of the loop: a piece that is empty once stripped changes
    nothing; any other piece causes exactly one call of the engine, and the
    turn ends normally exactly when that call produced a segment. *)
Lemma loop_body_cases (sentences : list str) (idx : nat) (s : str) (r : Run) :
  sentences !! idx = Some s →
  (kept_sentence s = None ∧ loop_body nlp lower engine resolve sentences idx s r = Normal r)
  ∨ (∃ sentence call,
       kept_sentence s = Some sentence
       ∧ call_text call = (detect_speaker_ml nlp lower sentence).2
       ∧ match loop_body nlp lower engine resolve sentences idx s r with
         | Normal r' =>
             is_loaded engine call
             ∧ tts_calls r' = tts_calls r ++ [call]
             ∧ output_audio r'
               = output_audio r ++ (segment_of engine call ++ silent 200)
             ∧ exported r' = exported r
         | Raised r' =>
             ¬ is_loaded engine call
             ∧ tts_calls r' = tts_calls r ++ [call]
             ∧ exported r' = exported r
         end).
Proof.
  intros Hs. unfold loop_body, kept_sentence.
  destruct (strip s) as [|c t] eqn:Estrip; [by left|]. right.
  rewrite (detect_speaker_at _ _ _ Hs), Estrip.
  destruct (detect_speaker_ml nlp lower (c :: t)) as [speaker dialogue] eqn:Ed.
  exists (c :: t),
    (mkTtsCall dialogue (assign_voice speaker (self r)).1 (temp_path_of idx)).
  split; [done|]. split; [by rewrite Ed|].
  destruct (engine _) as [wrote| |segment] eqn:Ee; cbv beta iota.
  - split; [|done]. intros [seg Hseg]. congruence.
  - split; [|done]. intros [seg Hseg]. congruence.
  - destruct (is_loaded_segment _ _ Ee) as [Hl ->]. done.
Qed.

(** The whole loop, by induction on the pieces still to come. *)
Lemma for_loop_cases (sentences : list str) (items : list (nat * str)) (r : Run) :
  (∀ idx s, (idx, s) ∈ items → sentences !! idx = Some s) →
  match for_loop nlp lower engine resolve sentences items r with
  | Normal r' =>
      ∃ calls,
        tts_calls r' = tts_calls r ++ calls
        ∧ Forall (is_loaded engine) calls
        ∧ output_audio r'
          = output_audio r
            ++ mjoin ((λ s, s ++ silent 200) <$> (segment_of engine <$> calls))
        ∧ exported r' = exported r
        ∧ call_text <$> calls
          = (λ sentence, (detect_speaker_ml nlp lower sentence).2)
              <$> omap kept_sentence (items.*2)
  | Raised r' =>
      ∃ calls call,
        tts_calls r' = tts_calls r ++ calls ++ [call]
        ∧ Forall (is_loaded engine) calls
        ∧ ¬ is_loaded engine call
        ∧ exported r' = exported r
  end.
Proof.
  revert r. induction items as [|[idx s] items IH]; intros r Hitems.
  - simpl. exists []. simpl. by rewrite !app_nil_r.
  - assert (sentences !! idx = Some s) as Hs by (apply Hitems; by left).
    assert (∀ i x, (i, x) ∈ items → sentences !! i = Some x) as Hrest.
    { intros i x Hin. apply Hitems. by right. }
    cbn [for_loop]. rewrite fmap_cons. cbn [snd omap list_omap].
    destruct (loop_body_cases sentences idx s r Hs)
      as [[Hk ->]|(sentence & call & Hk & Htext & Hbody)].
    + rewrite Hk. by apply IH.
    + rewrite Hk.
      destruct (loop_body nlp lower engine resolve sentences idx s r) as [r1|r1].
      * destruct Hbody as (Hl & Hcalls & Hout & Hexp).
        specialize (IH r1 Hrest).
        destruct (for_loop nlp lower engine resolve sentences items r1) as [r2|r2].
        -- destruct IH as (calls & Hc2 & Hl2 & Hout2 & Hexp2 & Htexts).
           exists (call :: calls). repeat split.
           ++ rewrite Hc2, Hcalls. by rewrite <- app_assoc.
           ++ by constructor.
           ++ rewrite Hout2, Hout, !fmap_cons. cbn [mjoin list_join].
              by rewrite <- !app_assoc.
           ++ congruence.
           ++ rewrite !fmap_cons. by rewrite Htext, Htexts.
        -- destruct IH as (calls & last & Hc2 & Hl2 & Hnl & Hexp2).
           exists (call :: calls), last. repeat split.
           ++ rewrite Hc2, Hcalls. by rewrite <- app_assoc.
           ++ by constructor.
           ++ done.
           ++ congruence.
      * destruct Hbody as (Hnl & Hcalls & Hexp).
        exists [], call. by repeat split.
Qed.

Lemma enumerate_lookup {A} (l : list A) idx x :
  (idx, x) ∈ enumerate l → l !! idx = Some x.
Proof.
  unfold enumerate. intros H.
  apply list_elem_of_lookup in H as [i Hi].
  rewrite list_lookup_imap in Hi.
  destruct (l !! i) eqn:E; simpl in Hi; [|done].
  by injection Hi as <- <-.
Qed.

Lemma enumerate_snd {A} (l : list A) : (enumerate l).*2 = l.
Proof.
  unfold enumerate. apply list_eq. intros i.
  rewrite list_lookup_fmap, list_lookup_imap.
  by destruct (l !! i).
Qed.

Lemma remove_temp_files_gone (r : Run) (f : str) :
  f ∈ temp_files r → resolve f ∉ disk (remove_temp_files resolve r).
Proof.
  unfold remove_temp_files. simpl.
  generalize (disk r) as d. induction (temp_files r) as [|g fs IH]; intros d Hf.
  - by apply elem_of_nil in Hf.
  - simpl. apply elem_of_cons in Hf as [->|Hf]; [|by apply IH].
    assert (∀ (l : list str) (d' : gset str), resolve g ∉ d' →
      resolve g
      ∉ fold_left
          (λ d f, if decide (resolve f ∈ d) then d ∖ {[resolve f]} else d) l d')
      as Hkeep.
    { induction l as [|h l IHl]; intros d' Hd'; [done|]. simpl.
      apply IHl. case_decide; [|done].
      intros [Hg _]%elem_of_difference. done. }
    apply Hkeep. case_decide; [|done].
    intros [_ Hg]%elem_of_difference. by apply Hg, elem_of_singleton.
Qed.

Lemma track_of_ends_with_silence (segments : list AudioSegment) :
  segments ≠ [] →
  track_of segments = track_ending_with_segment segments ++ silent 200.
Proof.
  intros Hne. unfold track_of, track_ending_with_segment.
  rewrite <- app_assoc. f_equal.
  induction segments as [|s [|s' rest] IH]; [done|..].
  - simpl. by rewrite app_nil_r.
  - change (mjoin ((λ s, s ++ silent 200) <$> s :: s' :: rest))
      with ((s ++ silent 200) ++ mjoin ((λ s, s ++ silent 200) <$> s' :: rest)).
    rewrite IH by done.
    change (interleave (s :: s' :: rest))
      with (s ++ silent 200 ++ interleave (s' :: rest)).
    by rewrite <- !app_assoc.
Qed.

(** C3 (amended): when every sentence is synthesized and loaded, the
    track handed to the export is the leading silence (100 ms) followed,
    for each segment in sentence order, by the segment and the trailing
    silence (200 ms): the trailing silence also follows the last segment,
    so the track is the one of the equation with one more trailing silence
    at its end.  That track is what is exported when the export succeeds;
    when the export raises, nothing is exported.  The segments are those of
    the kept sentences, in their order. *)
Theorem track_assembly (b : BookToSpeech) (files : gset str)
  (text output_filename : str) :
  let run :=
    generate_audio nlp lower engine resolve export_outcome b files text
      output_filename in
  let segments := segment_of engine <$> tts_calls run in
  Forall (is_loaded engine) (tts_calls run) →
  exported run
  = match export_outcome (output_path_of output_filename) with
    | Written => Some (output_path_of output_filename, track_of segments)
    | ExportRaises _ => None
    end
  ∧ output_audio run = track_of segments
  ∧ (segments ≠ [] →
       track_of segments = track_ending_with_segment segments ++ silent 200)
  ∧ call_text <$> tts_calls run
    = (λ sentence, (detect_speaker_ml nlp lower sentence).2)
        <$> segment_sentences text.
Proof.
  intros run segments Hall. subst run segments.
  unfold generate_audio, try_block in *.
  set (start := mkRun b (silent 100) [] files None [] []) in *.
  pose proof (for_loop_cases (split_sentences text)
    (enumerate (split_sentences text)) start (enumerate_lookup _)) as H.
  destruct (for_loop _ _ _ _ _ _ _) as [r|r].
  - destruct H as (calls & Hcalls & _ & Hout & Hexp & Htexts).
    cbn [start tts_calls output_audio exported app] in Hcalls, Hout, Hexp.
    assert (call_text <$> calls
            = (λ sentence, (detect_speaker_ml nlp lower sentence).2)
                <$> segment_sentences text) as Ht.
    { unfold segment_sentences. by rewrite Htexts, enumerate_snd. }
    unfold export.
    destruct (export_outcome (output_path_of output_filename));
      cbn [remove_temp_files report_error tts_calls exported output_audio];
      rewrite Hcalls, ?Hout, ?Hexp;
      (split; [done|]); (split; [done|]);
      (split; [apply track_of_ends_with_silence|done]).
  - destruct H as (calls & call & Hcalls & _ & Hnl & _).
    cbn [remove_temp_files report_error tts_calls] in Hall.
    cbn [start tts_calls app] in Hcalls. rewrite Hcalls in Hall.
    apply Forall_app in Hall as [_ Hall].
    rewrite Forall_singleton in Hall. by destruct Hnl.
Qed.

(** C4 (amended): when the synthesis of a sentence fails, the failure is
    caught and reported as a generation error, that sentence is the last
    one processed (no call of the engine follows the failed one) and no
    track is exported. *)
Theorem synthesis_failure_ends_run (b : BookToSpeech) (files : gset str)
  (text output_filename : str) (call : TtsCall) :
  let run := generate_audio nlp lower engine resolve export_outcome b files text output_filename in
  call ∈ tts_calls run → ¬ is_loaded engine call →
  exported run = None
  ∧ last (stdout run) = Some GenerationError
  ∧ last (tts_calls run) = Some call.
Proof.
  intros run Hin Hfail. subst run. unfold generate_audio, try_block in *.
  set (start := mkRun b (silent 100) [] files None [] []) in *.
  pose proof (for_loop_cases (split_sentences text)
    (enumerate (split_sentences text)) start (enumerate_lookup _)) as H.
  destruct (for_loop _ _ _ _ _ _ _) as [r|r].
  - destruct H as (calls & Hcalls & Hl & _).
    cbn [start tts_calls app] in Hcalls.
    assert (call ∈ calls) as Hc.
    { rewrite <- Hcalls. unfold export in Hin.
      by destruct (export_outcome _). }
    destruct Hfail. by eapply Forall_forall.
  - cbn [remove_temp_files report_error tts_calls exported stdout] in *.
    destruct H as (calls & failed & Hcalls & Hl & _ & Hexp).
    cbn [start tts_calls exported app] in Hcalls, Hexp.
    rewrite Hcalls in *.
    apply elem_of_app in Hin as [Hin|Hin].
    { destruct Hfail. by eapply Forall_forall. }
    apply list_elem_of_singleton in Hin as ->.
    by rewrite !last_snoc.
Qed.

(** Whatever happens in the loop, the files recorded in [temp_files], those
    of the sentences folded into the track, are gone when [generate_audio]
    returns. *)
Lemma folded_temp_files_removed (b : BookToSpeech) (files : gset str)
  (text output_filename : str) (f : str) :
  let run := generate_audio nlp lower engine resolve export_outcome b files text output_filename in
  f ∈ temp_files run → resolve f ∉ disk run.
Proof.
  intros run Hf. subst run. unfold generate_audio in *.
  by apply remove_temp_files_gone.
Qed.

End PipelineFacts.

(** *** Sample runs *)

Lemma track_assembly_witness :
  exported (generate_audio no_parse id engine_ok id export_writes init ∅ (py "Hi. Yo.") (py "out.wav"))
  = Some (py "output_audio/out.wav",
          [Silence 100; Sound [1]; Silence 200; Sound [1]; Silence 200]).
Proof.
  destruct (track_assembly no_parse id engine_ok id export_writes init ∅ (py "Hi. Yo.") (py "out.wav"))
    as (Hexp & _ & _).
  - apply Forall_forall. intros call _. by exists [Sound [1]].
  - rewrite Hexp. reflexivity.
Defined.

(** C3 as first stated fails on a single sentence: the exported track ends
    with the trailing silence, not with the segment. *)
Lemma track_assembly_counterexample :
  exported (generate_audio no_parse id engine_ok id export_writes init ∅ (py "Hi.") (py "out.wav"))
  = Some (py "output_audio/out.wav", [Silence 100; Sound [1]; Silence 200])
  ∧ track_ending_with_segment [[Sound [1]]] = [Silence 100; Sound [1]]
  ∧ exported (generate_audio no_parse id engine_ok id export_writes init ∅ (py "Hi.") (py "out.wav"))
    ≠ Some (py "output_audio/out.wav", track_ending_with_segment [[Sound [1]]]).
Proof. repeat split. vm_compute. discriminate. Qed.

Example export_refused_run :
  let run :=
    generate_audio no_parse id engine_ok id export_refused init ∅ (py "Hi.")
      (py "nodir/out.wav") in
  exported run = None
  ∧ output_audio run = [Silence 100; Sound [1]; Silence 200]
  ∧ stdout run
    = [Processing narrator ([DQUOTE] ++ py "Hi." ++ [DQUOTE]); GenerationError]
  ∧ disk run = ∅.
Proof. by vm_compute. Qed.

Lemma synthesis_failure_ends_run_witness :
  exported (generate_audio no_parse id engine_fails_first id export_writes init ∅
              (py "Hi. Yo.") (py "out.wav")) = None.
Proof.
  apply (synthesis_failure_ends_run no_parse id engine_fails_first id export_writes init ∅
           (py "Hi. Yo.") (py "out.wav")
           (mkTtsCall ([DQUOTE] ++ py "Hi." ++ [DQUOTE]) p225 (temp_path_of 0))).
  - vm_compute. left.
  - intros [segment H]. vm_compute in H. discriminate.
Defined.

(** C4 as first stated fails on a text of two sentences whose first
    synthesis fails: the second sentence is never processed (one call of
    the engine, one progress line) and nothing is exported. *)
Lemma synthesis_failure_counterexample :
  segment_sentences (py "Hi. Yo.") = [py "Hi."; py "Yo."]
  ∧ engine_fails_first
      (mkTtsCall ([DQUOTE] ++ py "Yo." ++ [DQUOTE]) p225 (temp_path_of 1))
    = Loaded [Sound [1]]
  ∧ exported (generate_audio no_parse id engine_fails_first id export_writes init ∅
                (py "Hi. Yo.") (py "out.wav")) = None
  ∧ call_file_path
      <$> tts_calls (generate_audio no_parse id engine_fails_first id export_writes init ∅
                       (py "Hi. Yo.") (py "out.wav"))
    = [temp_path_of 0]
  ∧ stdout (generate_audio no_parse id engine_fails_first id export_writes init ∅
              (py "Hi. Yo.") (py "out.wav"))
    = [Processing narrator ([DQUOTE] ++ py "Hi." ++ [DQUOTE]); GenerationError].
Proof. split; [reflexivity|]. by vm_compute. Qed.

(** C5, at a run where the claim fails: the engine writes
    [output_audio/temp_0.wav], loading it raises, and since the path is
    only recorded in [temp_files] after the segment has been folded in, the
    [finally] block has nothing to remove: the file is still there when
    [generate_audio] returns. *)
Theorem temp_file_left_after_load_failure :
  temp_files (generate_audio no_parse id engine_unloadable id export_writes init ∅
                (py "Hi.") (py "out.wav")) = []
  ∧ py "output_audio/temp_0.wav"
    ∈ disk (generate_audio no_parse id engine_unloadable id export_writes init ∅
              (py "Hi.") (py "out.wav"))
  ∧ py "output_audio/temp_0.wav" ∉ (∅ : gset str).
Proof.
  split; [reflexivity|]. split; [|apply not_elem_of_empty].
  apply elem_of_elements. vm_compute. left.
Qed.

(** * Further properties of the code *)

(** ** The voice registry, beyond the first nine labels *)

Lemma first_seen_elem labels l :
  l ∈ first_seen labels ↔ l ∈ labels ∧ l ≠ narrator.
Proof.
  induction labels as [|c labels IH] using rev_ind.
  - split; [by intros ?%elem_of_nil|by intros [?%elem_of_nil _]].
  - rewrite first_seen_snoc, elem_of_app, list_elem_of_singleton.
    unfold see. case_decide as Hc.
    + rewrite IH. split; [tauto|].
      intros [[Hin| ->] Hn]; [tauto|].
      destruct Hc as [Hc|Hc]; [done|]. by apply IH.
    + rewrite elem_of_app, list_elem_of_singleton, IH.
      split; [|tauto]. intros [[Hin Hn]| ->]; [tauto|]. tauto.
Qed.

(** X1: in every registry reached from [init], ["narrator"] is bound to
    ["p225"], and asking for its voice returns ["p225"] without changing
    the registry. *)
Theorem narrator_reserved (labels : list str) :
  let self := assign_voices labels init in
  character_voices self !! narrator = Some p225
  ∧ assign_voice narrator self = (p225, self).
Proof.
  intros self. pose proof (tracks_assign_voices labels) as T. fold self in T.
  split; [apply (tr_narrator _ _ T)|].
  apply assign_voice_known, (tr_narrator _ _ T).
Qed.

(** X2: after any sequence of calls from [init], the labels bound are
    exactly ["narrator"] and the labels that were passed. *)
Theorem registry_domain (labels : list str) :
  dom (character_voices (assign_voices labels init))
  = {[ narrator ]} ∪ list_to_set labels.
Proof.
  pose proof (tracks_assign_voices labels) as T.
  apply set_eq. intros l.
  rewrite elem_of_dom, elem_of_union, elem_of_singleton, elem_of_list_to_set.
  split.
  - intros H. destruct (tr_dom _ _ T l H) as [->|Hin]; [by left|].
    right. by apply first_seen_elem in Hin as [Hin _].
  - intros H. apply (tracks_known _ _ _ T).
    destruct (decide (l = narrator)) as [->|Hn]; [by left|].
    destruct H as [->|Hin]; [done|]. right. by apply first_seen_elem.
Qed.

(** X3: the pool is handed out cyclically: the label of rank [i] among
    the distinct labels other than ["narrator"] holds slot
    [(i + 1) mod 10] of the pool, however many labels there are; two labels
    whose ranks differ by ten hold the same voice. *)
Theorem voice_by_rank (labels : list str) (i : nat) (l : str) :
  first_seen labels !! i = Some l →
  character_voices (assign_voices labels init) !! l
  = py_index voice_pool ((Z.of_nat i + 1) `mod` 10)
  ∧ ∀ l', first_seen labels !! (i + 10)%nat = Some l' →
      character_voices (assign_voices labels init) !! l'
      = character_voices (assign_voices labels init) !! l.
Proof.
  intros Hi. pose proof (tracks_assign_voices labels) as T.
  pose proof (Z.mod_pos_bound (Z.of_nat i + 1) 10).
  rewrite py_index_nonneg by lia.
  split; [by apply (tr_seen _ _ T)|].
  intros l' Hi'. rewrite (tr_seen _ _ T _ _ Hi), (tr_seen _ _ T _ _ Hi').
  do 2 f_equal. rewrite Nat2Z.inj_add.
  replace (Z.of_nat i + Z.of_nat 10 + 1) with (Z.of_nat i + 1 + 1 * 10) by lia.
  by rewrite Z_mod_plus_full.
Qed.

Lemma voice_by_rank_witness :
  let labels :=
    py <$> ["a"; "b"; "c"; "d"; "e"; "f"; "g"; "h"; "i"; "j"; "k"]%string in
  character_voices (assign_voices labels init) !! py "k" = Some (py "p226")
  ∧ character_voices (assign_voices labels init) !! py "a" = Some (py "p226").
Proof.
  intros labels.
  destruct (voice_by_rank labels 0 (py "a")) as [Ha Hcycle]; [reflexivity|].
  split.
  - rewrite (Hcycle (py "k")); [|reflexivity]. rewrite Ha. reflexivity.
  - rewrite Ha. reflexivity.
Defined.

(** X4: from any registry, calls of [assign_voice] only add bindings:
    no binding is removed or given another voice, and the pool is never
    changed. *)
Theorem bindings_only_grow (self : BookToSpeech) (labels : list str) :
  character_voices self ⊆ character_voices (assign_voices labels self)
  ∧ available_voices (assign_voices labels self) = available_voices self.
Proof.
  split.
  - apply map_subseteq_spec. intros l v. apply assign_voices_keeps.
  - revert self. induction labels as [|c labels IH]; intros self; [done|].
    simpl. rewrite IH. unfold assign_voice, assign_voice_state, try_bind. simpl.
    destruct (character_voices self !! c); [done|].
    by destruct (py_index _ _).
Qed.

Lemma py_index_Some_len {A} (l : list A) (i : Z) (x : A) :
  py_index l i = Some x → 0 < len l ∧ - len l ≤ i < len l.
Proof.
  unfold py_index, len. destruct (Z.leb_spec 0 i) as [Hi|Hi].
  - intros H%lookup_lt_Some. lia.
  - destruct (Z.leb_spec (- Z.of_nat (length l)) i) as [Hlo|Hlo]; [|done].
    intros Hx%lookup_lt_Some. lia.
Qed.

Lemma cursor_valid_step (self : BookToSpeech) (l : str) :
  cursor_valid self → cursor_valid (assign_voice l self).2.
Proof.
  intros [v Hv]. unfold assign_voice, assign_voice_state, try_bind. simpl.
  destruct (character_voices self !! l); [by exists v|].
  rewrite Hv. unfold cursor_valid. simpl.
  destruct (py_index_Some_len _ _ _ Hv) as [Hlen _].
  pose proof (Z.mod_pos_bound (next_voice_index self + 1)
                (len (available_voices self)) Hlen).
  rewrite py_index_nonneg by lia.
  apply lookup_lt_is_Some. unfold len in *. lia.
Qed.

(** X5: if the pool lookup succeeds in a registry (the cursor is a valid
    Python index, possibly a negative one), it succeeds after every further
    sequence of calls: the [try] block completes for every label, the pool
    is non-empty whenever the cursor is reduced modulo its size, and the
    fallback is never used. *)
Theorem cursor_valid_forever (self : BookToSpeech) (labels : list str) (l : str) :
  cursor_valid self →
  cursor_valid (assign_voices labels self)
  ∧ 0 < len (available_voices (assign_voices labels self))
  ∧ is_Some (try_bind l (assign_voices labels self)).
Proof.
  intros Hvalid.
  assert (cursor_valid (assign_voices labels self)) as Hafter.
  { revert self Hvalid. induction labels as [|c labels IH]; intros self Hv; [done|].
    simpl. apply IH. by apply cursor_valid_step. }
  split; [done|]. destruct Hafter as [v Hv].
  split; [by destruct (py_index_Some_len _ _ _ Hv)|].
  unfold try_bind. rewrite Hv. eauto.
Qed.

Lemma cursor_valid_forever_witness :
  cursor_valid (assign_voices [py "Ann"]
                  (mkBookToSpeech voice_pool ∅ (-1))).
Proof.
  apply (cursor_valid_forever (mkBookToSpeech voice_pool ∅ (-1)) [py "Ann"] []).
  by exists (py "p234").
Defined.

(** X6: if the pool lookup fails in a registry (empty pool, or a cursor
    out of range), no exception escapes: every label that was unbound is
    bound to ["p225"], and neither the cursor nor the pool ever changes, so
    the lookup keeps failing. *)
Theorem fallback_forever (self : BookToSpeech) (labels : list str) (l : str) :
  py_index (available_voices self) (next_voice_index self) = None →
  next_voice_index (assign_voices labels self) = next_voice_index self
  ∧ available_voices (assign_voices labels self) = available_voices self
  ∧ (l ∈ labels → character_voices self !! l = None →
       character_voices (assign_voices labels self) !! l = Some p225).
Proof.
  revert self. induction labels as [|c labels IH]; intros self Hnone.
  - split; [done|]. split; [done|]. by intros ?%elem_of_nil.
  - assert (assign_voice_state c self
            = match character_voices self !! c with
              | Some _ => self
              | None => bind_fallback c self
              end) as Hstep.
    { unfold assign_voice_state, try_bind. by rewrite Hnone. }
    simpl. change (assign_voice c self).2 with (assign_voice_state c self).
    rewrite Hstep.
    destruct (character_voices self !! c) as [w|] eqn:Ec.
    + destruct (IH self Hnone) as (Hn & Hp & Hl).
      split; [done|]. split; [done|].
      intros Hin Hfree. apply Hl; [|done].
      apply elem_of_cons in Hin as [->|Hin]; [congruence|done].
    + destruct (IH (bind_fallback c self) Hnone) as (Hn & Hp & Hl).
      split; [done|]. split; [done|].
      intros Hin Hfree. destruct (decide (l = c)) as [->|Hne].
      * apply assign_voices_keeps. simpl. apply lookup_insert_eq.
      * apply Hl.
        -- apply elem_of_cons in Hin as [->|Hin]; done.
        -- simpl. by rewrite lookup_insert_ne.
Qed.

Lemma fallback_forever_witness :
  character_voices (assign_voices [py "Ann"; py "Bob"] registry_without_pool)
  !! py "Bob" = Some p225.
Proof.
  apply (fallback_forever registry_without_pool [py "Ann"; py "Bob"] (py "Bob")).
  - reflexivity.
  - compute_done.
  - reflexivity.
Defined.

Lemma tracks_unique seen r1 r2 : tracks seen r1 → tracks seen r2 → r1 = r2.
Proof.
  intros T1 T2. destruct r1 as [p1 m1 n1], r2 as [p2 m2 n2].
  pose proof (tr_pool _ _ T1) as Hp1. pose proof (tr_pool _ _ T2) as Hp2.
  pose proof (tr_next _ _ T1) as Hn1. pose proof (tr_next _ _ T2) as Hn2.
  simpl in *. subst. f_equal.
  apply map_eq. intros l.
  destruct (decide (l = narrator)) as [->|Hn].
  { pose proof (tr_narrator _ _ T1). pose proof (tr_narrator _ _ T2).
    simpl in *. congruence. }
  destruct (decide (l ∈ seen)) as [Hin|Hout].
  - apply list_elem_of_lookup in Hin as [i Hi].
    pose proof (tr_seen _ _ T1 _ _ Hi). pose proof (tr_seen _ _ T2 _ _ Hi).
    simpl in *. congruence.
  - assert (∀ m p n, tracks seen (mkBookToSpeech p m n) → m !! l = None) as Hno.
    { intros m p n T. destruct (m !! l) eqn:E; [|done].
      destruct (tr_dom _ _ T l) as [?|?]; simpl; eauto; done. }
    by rewrite (Hno _ _ _ T1), (Hno _ _ _ T2).
Qed.

Lemma first_seen_fixed seen :
  NoDup seen → narrator ∉ seen → first_seen seen = seen.
Proof.
  induction seen as [|c seen IH] using rev_ind; [done|].
  intros Hnd Hn. apply NoDup_app in Hnd as (Hnd & Hdisj & _).
  apply not_elem_of_app in Hn as [Hn Hc].
  rewrite first_seen_snoc, IH by done. unfold see.
  rewrite decide_False; [done|].
  intros [->|Hin].
  - apply Hc. by left.
  - apply (Hdisj c Hin). by left.
Qed.

(** X7: repetitions do not matter: the registry reached from [init]
    depends only on the distinct labels other than ["narrator"] and on the
    order in which they first occur. *)
Theorem repeats_do_not_matter (labels : list str) :
  assign_voices labels init = assign_voices (first_seen labels) init.
Proof.
  pose proof (tracks_assign_voices labels) as T.
  pose proof (tracks_assign_voices (first_seen labels)) as T'.
  rewrite first_seen_fixed in T'.
  - by apply (tracks_unique (first_seen labels)).
  - apply (tr_nodup _ _ T).
  - intros Hin. by apply first_seen_elem in Hin as [_ ?].
Qed.

(** ** The speaker attributor: the reported speaker *)

Section AttributorMore.

Variable nlp : str → list Token.
Variable lower : str → str.

Lemma find_first_subject cs child :
  find (λ child, bool_decide (dep_ child ∈ subject_roles)) cs = Some child →
  first_subject cs child.
Proof.
  induction cs as [|c cs IH]; [done|]. cbn [find].
  case_bool_decide as Hdep.
  - intros [= <-]. exists [], cs. split; [done|]. split; [|done].
    intros c' Hc'. by apply elem_of_nil in Hc'.
  - intros (cs1 & cs2 & -> & Hcs1 & Hchild)%IH.
    exists (c :: cs1), cs2. split; [done|]. split; [|done].
    intros c' [->|Hc']%elem_of_cons; [done|by apply Hcs1].
Qed.

Lemma token_loop_skip before rest speaker :
  no_named_speaker lower before → truthy speaker = false →
  ∃ speaker',
    truthy speaker' = false
    ∧ token_loop lower (before ++ rest) speaker
      = token_loop lower rest speaker'.
Proof.
  revert speaker.
  induction before as [|token before IH]; intros speaker H Hsp;
    [by exists speaker|].
  assert (no_named_speaker lower before) as Hb.
  { intros t c Ht. apply H. by right. }
  cbn [app token_loop]. case_bool_decide as Hverb; [|by apply IH].
  assert (truthy (children_loop (children token) speaker) = false) as Hsp'.
  { unfold children_loop.
    destruct (find _ (children token)) as [child|] eqn:E; [|done].
    apply find_first_subject in E.
    by rewrite (H token child) by (done || by left). }
  rewrite Hsp'. by apply IH.
Qed.

Lemma children_loop_first cs1 child cs2 speaker :
  (∀ c, c ∈ cs1 → dep_ c ∉ subject_roles) →
  dep_ child ∈ subject_roles →
  children_loop (cs1 ++ child :: cs2) speaker = Some (text child).
Proof.
  intros Hcs1 Hchild. unfold children_loop.
  induction cs1 as [|c cs1 IH]; simpl.
  - by rewrite bool_decide_eq_true_2.
  - rewrite bool_decide_eq_false_2 by (apply Hcs1; by left).
    apply IH. intros c' Hc'. apply Hcs1. by right.
Qed.

(** X8: the speaker label is the text of the first subject dependent
    with a non-empty text of the speech verbs examined in order: when every
    earlier speech verb (by its lower-cased lemma) has no dependent in a
    subject role or has an empty text in the first of them, the token is a
    speech verb, the dependent is the first of its children in a subject
    role, and its text is not empty. *)
Theorem speaker_reported (sentence : str) (before after : list Token)
  (token : Token) (cs1 cs2 : list Child) (child : Child) :
  nlp sentence = before ++ token :: after →
  no_named_speaker lower before →
  lower (lemma_ token) ∈ speech_verbs →
  children token = cs1 ++ child :: cs2 →
  (∀ c, c ∈ cs1 → dep_ c ∉ subject_roles) →
  dep_ child ∈ subject_roles →
  text child ≠ [] →
  (detect_speaker_ml nlp lower sentence).1 = text child.
Proof.
  intros Hdoc Hbefore Hverb Hchildren Hcs1 Hdep Htext.
  unfold detect_speaker_ml. cbn [fst]. rewrite Hdoc.
  destruct (token_loop_skip before (token :: after) None Hbefore)
    as (speaker & _ & ->); [done|].
  cbn [token_loop]. rewrite bool_decide_eq_true_2 by done.
  rewrite Hchildren, children_loop_first by done.
  by destruct (text child).
Qed.

Lemma token_loop_source doc speaker label :
  token_loop lower doc speaker = Some label →
  speaker = Some label
  ∨ ∃ token child,
      token ∈ doc ∧ lower (lemma_ token) ∈ speech_verbs
      ∧ child ∈ children token ∧ dep_ child ∈ subject_roles
      ∧ label = text child.
Proof.
  revert speaker. induction doc as [|token doc IH]; intros speaker; [by left|].
  simpl. case_bool_decide as Hverb.
  - unfold children_loop.
    destruct (find _ (children token)) as [child|] eqn:Efind.
    + apply find_some in Efind as [Hin Hdep].
      apply bool_decide_eq_true in Hdep. apply list_elem_of_In in Hin.
      assert (∃ token0 child0,
        token0 ∈ token :: doc ∧ lower (lemma_ token0) ∈ speech_verbs
        ∧ child0 ∈ children token0 ∧ dep_ child0 ∈ subject_roles
        ∧ text child = text child0) as Hhere.
      { exists token, child. repeat split; [by left|done..]. }
      destruct (truthy (Some (text child))).
      * intros [= <-]. by right.
      * intros H. destruct (IH _ H) as [[= <-]|(t & c & Ht & ?)]; [by right|].
        right. exists t, c. split; [by right|done].
    + destruct (truthy speaker).
      * intros ->. by left.
      * intros H. destruct (IH _ H) as [?|(t & c & Ht & ?)]; [by left|].
        right. exists t, c. split; [by right|done].
  - intros H. destruct (IH _ H) as [?|(t & c & Ht & ?)]; [by left|].
    right. exists t, c. split; [by right|done].
Qed.

(** X9: the speaker label is never empty, and it is either one of the
    two sentinels or the text of a dependent in a subject role of a speech
    verb of the parse. *)
Theorem speaker_label_sources (sentence : str) :
  let label := (detect_speaker_ml nlp lower sentence).1 in
  label ≠ []
  ∧ (label = py "dialogue" ∨ label = py "narrator"
     ∨ ∃ token child,
         token ∈ nlp sentence ∧ lower (lemma_ token) ∈ speech_verbs
         ∧ child ∈ children token ∧ dep_ child ∈ subject_roles
         ∧ label = text child).
Proof.
  unfold detect_speaker_ml. simpl.
  destruct (token_loop lower (nlp sentence) None) as [[|c label]|] eqn:E; simpl.
  - split; [by destruct (_ || _)|]. destruct (_ || _); auto.
  - split; [done|]. right. right.
    destruct (token_loop_source _ _ _ E) as [?|H]; [done|]. exact H.
  - split; [by destruct (_ || _)|]. destruct (_ || _); auto.
Qed.

Lemma py_index_None {A} (l : list A) (i : Z) :
  py_index l i = None ↔ i < - len l ∨ len l ≤ i.
Proof.
  unfold py_index, len. destruct (Z.leb_spec 0 i) as [Hi|Hi].
  - rewrite lookup_ge_None. lia.
  - destruct (Z.leb_spec (- Z.of_nat (length l)) i) as [Hlo|Hlo].
    + rewrite lookup_ge_None. lia.
    + split; [lia|done].
Qed.

(** X10: [detect_speaker] fails (with [IndexError]) exactly for an index
    outside [-len(sentences) .. len(sentences) - 1]; a negative index in
    range counts from the end; otherwise the sentence at the index is
    stripped and attributed. *)
Theorem detect_speaker_index (sentences : list str) (i : Z) :
  (detect_speaker nlp lower i sentences = None
   ↔ i < - len sentences ∨ len sentences ≤ i)
  ∧ (- len sentences ≤ i < 0 →
     detect_speaker nlp lower i sentences
     = detect_speaker nlp lower (len sentences + i) sentences)
  ∧ (∀ s, 0 ≤ i → sentences !! Z.to_nat i = Some s →
     detect_speaker nlp lower i sentences
     = Some (detect_speaker_ml nlp lower (strip s))).
Proof.
  unfold detect_speaker. split; [|split].
  - rewrite <- py_index_None. by destruct (py_index sentences i).
  - intros Hi. f_equal. unfold py_index.
    destruct (Z.leb_spec 0 i); [lia|].
    destruct (Z.leb_spec (- len sentences) i); [|lia].
    destruct (Z.leb_spec 0 (len sentences + i)); [done|lia].
  - intros s Hi Hs. rewrite py_index_nonneg by done. by rewrite Hs.
Qed.

End AttributorMore.

Lemma speaker_reported_witness :
  (detect_speaker_ml
     (λ _, [mkToken (py "asked") [mkChild (py "dobj") (py "it");
                                   mkChild (py "nsubj") []];
            mkToken (py "reply") [];
            mkToken (py "say") [mkChild (py "nsubj") (py "He");
                                mkChild (py "ccomp") (py "leaving")]])
     id he_said).1
  = py "He".
Proof.
  apply (speaker_reported _ id he_said
           [mkToken (py "asked") [mkChild (py "dobj") (py "it");
                                   mkChild (py "nsubj") []];
            mkToken (py "reply") []]
           []
           (mkToken (py "say") [mkChild (py "nsubj") (py "He");
                                mkChild (py "ccomp") (py "leaving")])
           [] [mkChild (py "ccomp") (py "leaving")]
           (mkChild (py "nsubj") (py "He"))).
  - reflexivity.
  - intros token child Htoken _ (cs1 & cs2 & Hcs & Hcs1 & Hdep).
    apply elem_of_cons in Htoken as [->|Htoken].
    + destruct cs1 as [|c1 [|c2 [|c3 cs1]]]; simplify_eq/=; try done.
      exfalso. revert Hdep. compute_done.
    + apply list_elem_of_singleton in Htoken as ->.
      by destruct cs1.
  - compute_done.
  - reflexivity.
  - intros c Hc. by apply elem_of_nil in Hc.
  - compute_done.
  - done.
Defined.

Lemma detect_speaker_index_witness :
  detect_speaker no_parse id (-1) [py "One."; py " Two. "]
  = Some (py "narrator", [DQUOTE] ++ py "Two." ++ [DQUOTE]).
Proof.
  destruct (detect_speaker_index no_parse id [py "One."; py " Two. "] (-1))
    as (_ & Hneg & _).
  rewrite Hneg by (unfold len; simpl; lia). reflexivity.
Defined.

(** ** Segmentation: what the pieces keep and how they look *)

Lemma visible_app s t : visible (s ++ t) = visible s ++ visible t.
Proof. apply filter_app. Qed.

Lemma visible_space c s : isspace c = true → visible (c :: s) = visible s.
Proof. intros H. unfold visible. rewrite filter_cons_False; [done|congruence]. Qed.

Lemma visible_char c s : isspace c = false → visible (c :: s) = c :: visible s.
Proof. intros H. unfold visible. by rewrite filter_cons_True. Qed.

Lemma visible_split_scan in_gap after_terminal cur text :
  visible (mjoin (split_scan in_gap after_terminal cur text))
  = visible cur ++ visible text.
Proof.
  revert in_gap after_terminal cur.
  induction text as [|c rest IH]; intros in_gap after_terminal cur.
  - simpl. by rewrite !app_nil_r.
  - simpl. destruct (isspace c) eqn:Ec.
    + rewrite (visible_space c rest Ec).
      destruct in_gap; [apply IH|]. destruct after_terminal.
      * change (mjoin (cur :: ?l)) with (cur ++ mjoin l).
        by rewrite visible_app, IH.
      * rewrite IH, visible_app, (visible_space c [] Ec). simpl.
        by rewrite app_nil_r.
    + rewrite IH, visible_app, !(visible_char c _ Ec). simpl.
      by rewrite <- app_assoc.
Qed.

Lemma visible_lstrip s : visible (lstrip s) = visible s.
Proof.
  induction s as [|c s IH]; [done|]. simpl.
  destruct (isspace c) eqn:Ec; [|done]. by rewrite visible_space.
Qed.

Lemma visible_strip s : visible (strip s) = visible s.
Proof.
  unfold strip, rstrip, visible.
  fold (visible (lstrip (reverse (lstrip (reverse s))))).
  rewrite visible_lstrip. unfold visible.
  rewrite filter_reverse. fold (visible (lstrip (reverse s))).
  rewrite visible_lstrip. unfold visible.
  by rewrite filter_reverse, reverse_involutive.
Qed.

Lemma visible_kept pieces :
  visible (mjoin (omap kept_sentence pieces)) = visible (mjoin pieces).
Proof.
  induction pieces as [|piece pieces IH]; [done|].
  change (mjoin (piece :: pieces)) with (piece ++ mjoin pieces).
  rewrite visible_app, <- IH, <- (visible_strip piece).
  cbn [omap list_omap]. unfold kept_sentence.
  destruct (strip piece) as [|c t] eqn:E; [done|].
  change (mjoin ((c :: t) :: ?l)) with ((c :: t) ++ mjoin l).
  by rewrite visible_app.
Qed.

(** X11: segmentation loses nothing but whitespace: the characters that
    are not whitespace are the same, in the same order, in the text, in
    the pieces of [re.split] and in the sentences kept by the loop. *)
Theorem segmentation_keeps_visible_text (text : str) :
  visible (mjoin (split_sentences text)) = visible text
  ∧ visible (mjoin (segment_sentences text)) = visible text.
Proof.
  assert (visible (mjoin (split_sentences text)) = visible text) as H.
  { unfold split_sentences. by rewrite visible_split_scan. }
  split; [done|]. unfold segment_sentences. by rewrite visible_kept.
Qed.








(** ** The sentence loop: calls, registry and files *)

Section PipelineMore.

Variable nlp : str → list Token.
Variable lower : str → str.
Variable engine : TtsCall → Synthesis.
Variable resolve : str → str.
Variable export_outcome : str → Export.

Lemma loaded_is_loaded call : loaded engine call = true ↔ is_loaded engine call.
Proof.
  unfold loaded, is_loaded. destruct (engine call) as [w| |seg].
  - split; [done|by intros [? ?]].
  - split; [done|by intros [? ?]].
  - split; [by exists seg|done].
Qed.

Lemma loaded_leaves_file call : loaded engine call = true → leaves_file engine call = true.
Proof. unfold loaded, leaves_file. by destruct (engine call). Qed.

(** One turn of the loop on a kept sentence, in full. *)
Lemma loop_body_kept (sentences : list str) (idx : nat) (s sentence : str) (r : Run) :
  sentences !! idx = Some s → kept_sentence s = Some sentence →
  let p := plan_item nlp lower (idx, sentence) in
  let call :=
    mkTtsCall (planned_text p) (assign_voice (planned_label p) (self r)).1
      (planned_file_path p) in
  ∃ r',
    loop_body nlp lower engine resolve sentences idx s r
    = (if loaded engine call then Normal r' else Raised r')
    ∧ self r' = (assign_voice (planned_label p) (self r)).2
    ∧ tts_calls r' = tts_calls r ++ [call]
    ∧ temp_files r'
      = temp_files r ++ (if loaded engine call then [temp_path_of idx] else [])
    ∧ disk r'
      = (if leaves_file engine call
         then {[resolve (temp_path_of idx)]} ∪ disk r else disk r)
    ∧ exported r' = exported r ∧ output_audio r'
      = output_audio r
        ++ (if loaded engine call then segment_of engine call ++ silent 200 else []).
Proof.
  intros Hs Hk p call. subst p call. unfold plan_item. cbn [fst snd planned_label planned_text planned_file_path].
  unfold loop_body. unfold kept_sentence in Hk.
  rewrite (detect_speaker_at _ _ _ _ _ Hs).
  destruct (strip s) as [|c t] eqn:Estrip; [done|]. injection Hk as <-.
  destruct (detect_speaker_ml nlp lower (c :: t)) as [speaker dialogue] eqn:Ed.
  cbn [fst snd]. unfold loaded, leaves_file, segment_of.
  destruct (engine _) as [wrote| |segment] eqn:Ee; cbv beta iota;
    eexists; (split; [reflexivity|]);
    cbn [self tts_calls temp_files disk exported output_audio];
    rewrite ?app_nil_r; repeat split; done.
Qed.

Lemma loop_body_dropped (sentences : list str) (idx : nat) (s : str) (r : Run) :
  kept_sentence s = None →
  loop_body nlp lower engine resolve sentences idx s r = Normal r.
Proof.
  unfold kept_sentence, loop_body. by destruct (strip s).
Qed.

Lemma kept_items_cons_dropped idx s items :
  kept_sentence s = None → kept_items ((idx, s) :: items) = kept_items items.
Proof. intros H. unfold kept_items. cbn [omap list_omap fst snd]. by rewrite H. Qed.

Lemma kept_items_cons_kept idx s sentence items :
  kept_sentence s = Some sentence →
  kept_items ((idx, s) :: items) = (idx, sentence) :: kept_items items.
Proof. intros H. unfold kept_items. cbn [omap list_omap fst snd]. by rewrite H. Qed.

(** The whole loop: the kept sentences are carried out in order up to the
    first call that produces no segment; the registry, the recorded paths
    and the files follow the calls made. *)
Lemma for_loop_trace (sentences : list str) (items : list (nat * str)) (r : Run) :
  (∀ idx s, (idx, s) ∈ items → sentences !! idx = Some s) →
  ∃ r' done todo calls,
    plan_item nlp lower <$> kept_items items = done ++ todo
    ∧ Forall2 carries_out done calls
    ∧ tts_calls r' = tts_calls r ++ calls
    ∧ self r' = assign_voices (planned_label <$> done) (self r)
    ∧ Forall2 (λ p call,
        character_voices (self r') !! planned_label p = Some (call_speaker call))
        done calls
    ∧ temp_files r'
      = temp_files r
        ++ (call_file_path <$> filter (λ c, loaded engine c = true) calls)
    ∧ disk r'
      = list_to_set
          (resolve
             <$> (call_file_path <$> filter (λ c, leaves_file engine c = true) calls))
        ∪ disk r
    ∧ exported r' = exported r
    ∧ output_audio r'
      = output_audio r
        ++ mjoin ((λ s, s ++ silent 200) <$> (segment_of engine
             <$> filter (λ c, loaded engine c = true) calls))
    ∧ ((for_loop nlp lower engine resolve sentences items r = Normal r'
        ∧ todo = [] ∧ Forall (λ c, loaded engine c = true) calls)
       ∨ (for_loop nlp lower engine resolve sentences items r = Raised r'
          ∧ ∃ good bad, calls = good ++ [bad]
              ∧ Forall (λ c, loaded engine c = true) good
              ∧ loaded engine bad = false)).
Proof.
  revert r. induction items as [|[idx s] items IH]; intros r Hitems.
  - exists r, [], [], []. cbn [for_loop].
    split; [done|]. split; [constructor|]. split; [by rewrite app_nil_r|].
    split; [done|]. split; [constructor|]. split; [by rewrite app_nil_r|].
    split; [cbn; by rewrite (left_id_L ∅ (∪))|]. split; [done|].
    split; [cbn; by rewrite app_nil_r|].
    left. by repeat split.
  - assert (sentences !! idx = Some s) as Hs by (apply Hitems; by left).
    assert (∀ i x, (i, x) ∈ items → sentences !! i = Some x) as Hrest.
    { intros i x Hin. apply Hitems. by right. }
    cbn [for_loop].
    destruct (kept_sentence s) as [sentence|] eqn:Hk.
    2:{ rewrite (loop_body_dropped _ _ _ _ Hk), (kept_items_cons_dropped _ _ _ Hk).
        apply IH, Hrest. }
    rewrite (kept_items_cons_kept _ _ _ _ Hk), fmap_cons.
    destruct (loop_body_kept sentences idx s sentence r Hs Hk)
      as (r1 & Hbody & Hself & Hcalls & Htemp & Hdisk & Hexp & Hout).
    set (p := plan_item nlp lower (idx, sentence)) in *.
    set (call := mkTtsCall (planned_text p)
                   (assign_voice (planned_label p) (self r)).1
                   (planned_file_path p)) in *.
    rewrite Hbody. destruct (loaded engine call) eqn:Hl.
    + destruct (IH r1 Hrest)
        as (r' & done & todo & calls & Hplan & Hcarry & Hc' & Hs' & Hv'
            & Ht' & Hd' & He' & Ho' & Hend).
      exists r', (p :: done), todo, (call :: calls).
      split; [by rewrite Hplan|].
      split; [by constructor|].
      split; [by rewrite Hc', Hcalls, <- app_assoc|].
      split; [by rewrite Hs', Hself|].
      split.
      { constructor; [|done]. rewrite Hs', Hself.
        apply assign_voices_keeps, assign_voice_returns. }
      split.
      { rewrite Ht', Htemp, filter_cons_True, fmap_cons, <- app_assoc by done.
        done. }
      split.
      { rewrite Hd', Hdisk, (loaded_leaves_file _ Hl).
        rewrite filter_cons_True by (by apply loaded_leaves_file).
        rewrite !fmap_cons. cbn [list_to_set call_file_path call].
        subst p. cbn [plan_item planned_file_path fst].
        apply set_eq; intros x; rewrite ?elem_of_union, ?elem_of_empty; tauto. }
      split; [congruence|].
      split.
      { rewrite Ho', Hout, filter_cons_True, !fmap_cons by done.
        cbn [mjoin list_join]. by rewrite <- !app_assoc. }
      destruct Hend as [(Hloop & -> & Hall)|(Hloop & good & bad & -> & Hall & Hbad)].
      * left. repeat split; [done|]. by constructor.
      * right. split; [done|]. exists (call :: good), bad.
        repeat split; [|done]. by constructor.
    + exists r1, [p], (plan_item nlp lower <$> kept_items items), [call].
      split; [done|].
      split; [by repeat constructor|].
      split; [done|].
      split; [done|].
      split.
      { repeat constructor. rewrite Hself. apply assign_voice_returns. }
      split.
      { rewrite Htemp, filter_cons_False by congruence. done. }
      split.
      { rewrite Hdisk. subst p. cbn [plan_item planned_file_path fst].
        destruct (leaves_file engine call) eqn:Hlf.
        - rewrite filter_cons_True by done. cbn.
          apply set_eq; intros x; rewrite ?elem_of_union, ?elem_of_empty; tauto.
        - rewrite filter_cons_False by congruence. cbn.
          apply set_eq; intros x; rewrite ?elem_of_union, ?elem_of_empty; tauto. }
      split; [done|].
      split.
      { rewrite Hout, filter_cons_False by congruence. done. }
      right. split; [done|]. exists [], call. by repeat split.
Qed.

Lemma remove_temp_files_disk (r : Run) :
  disk (remove_temp_files resolve r)
  = disk r ∖ list_to_set (resolve <$> temp_files r).
Proof.
  unfold remove_temp_files. cbn [disk].
  generalize (disk r) as d. induction (temp_files r) as [|f fs IH]; intros d.
  - cbn. by rewrite difference_empty_L.
  - rewrite fmap_cons. cbn [fold_left list_to_set]. rewrite IH.
    case_decide as Hf.
    + apply set_eq. intros x.
      rewrite !elem_of_difference, elem_of_union, elem_of_singleton. tauto.
    + apply set_eq. intros x.
      rewrite !elem_of_difference, elem_of_union, elem_of_singleton.
      split; [|tauto]. intros [Hx Hn]. split; [done|].
      intros [->|Hfs]; done.
Qed.

(** A run of [generate_audio], in terms of the plan of its text. *)
Lemma generate_audio_trace (b : BookToSpeech) (files : gset str)
  (text output_filename : str) :
  let run := generate_audio nlp lower engine resolve export_outcome b files text output_filename in
  let out := output_path_of output_filename in
  let calls := tts_calls run in
  let left_behind :=
    resolve <$> (call_file_path <$> filter (λ c, leaves_file engine c = true) calls) in
  ∃ done todo,
    plan nlp lower text = done ++ todo
    ∧ Forall2 carries_out done calls
    ∧ self run = assign_voices (planned_label <$> done) b
    ∧ Forall2 (λ p call,
        character_voices (self run) !! planned_label p = Some (call_speaker call))
        done calls
    ∧ temp_files run
      = call_file_path <$> filter (λ c, loaded engine c = true) calls
    ∧ ((todo = [] ∧ Forall (λ c, loaded engine c = true) calls
        ∧ exported run
          = match export_outcome out with
            | Written => Some (out, output_audio run)
            | ExportRaises _ => None
            end
        ∧ disk run
          = (export_leaves resolve export_outcome out
             ∪ (list_to_set left_behind ∪ files))
            ∖ list_to_set (resolve <$> temp_files run))
       ∨ ((∃ good bad, calls = good ++ [bad]
             ∧ Forall (λ c, loaded engine c = true) good
             ∧ loaded engine bad = false)
          ∧ exported run = None
          ∧ disk run
            = (list_to_set left_behind ∪ files)
              ∖ list_to_set (resolve <$> temp_files run))).
Proof.
  intros run out calls left_behind. subst run out calls left_behind.
  unfold generate_audio, try_block, plan.
  set (start := mkRun b (silent 100) [] files None [] []).
  destruct (for_loop_trace (split_sentences text)
    (enumerate (split_sentences text)) start (enumerate_lookup _))
    as (r' & done & todo & calls & Hplan & Hcarry & Hc & Hs & Hv & Ht & Hd
        & He & _ & Hend).
  cbn [start tts_calls self temp_files disk exported app] in Hc, Hs, Ht, Hd, He.
  exists done, todo. split; [done|]. rewrite Hs in Hv.
  destruct Hend as [(-> & -> & Hall)|(-> & Hbad)].
  - unfold export, export_leaves.
    destruct (export_outcome (output_path_of output_filename)) as [|wrote];
      rewrite remove_temp_files_disk;
      cbn [remove_temp_files report_error tts_calls self temp_files disk
           exported output_audio];
      rewrite ?Hc, ?Hs, ?Ht, ?Hd, ?He;
      (split; [done|]); (split; [done|]); (split; [done|]); (split; [done|]);
      left; (split; [done|]); (split; [done|]); (split; [done|]).
    + done.
    + destruct wrote; [done|]. by rewrite (left_id_L ∅ (∪)).
  - rewrite remove_temp_files_disk.
    cbn [remove_temp_files report_error tts_calls self temp_files disk exported].
    rewrite ?Hc, ?Hs, ?Ht, ?Hd, ?He.
    split; [done|]. split; [done|]. split; [done|]. split; [done|].
    right. split; [done|]. split; [done|done].
Qed.

Lemma all_space_not_terminal text c :
  Forall (λ c, isspace c = true) text → c ∈ text → is_terminal c = false.
Proof.
  intros Hall Hc. rewrite Forall_forall in Hall.
  destruct (is_terminal c) eqn:E; [|done].
  apply is_terminal_not_space in E. rewrite (Hall c Hc) in E. done.
Qed.

Lemma lstrip_all_space s : Forall (λ c, isspace c = true) s → lstrip s = [].
Proof. induction 1 as [|c s Hc _ IH]; [done|]. simpl. by rewrite Hc. Qed.

Lemma strip_all_space s : Forall (λ c, isspace c = true) s → strip s = [].
Proof.
  intros H. unfold strip, rstrip.
  rewrite (lstrip_all_space (reverse s)) by (by apply Forall_reverse).
  done.
Qed.

Lemma blank_run (b : BookToSpeech) (files : gset str)
  (text output_filename : str) :
  Forall (λ c, isspace c = true) text →
  segment_sentences text = []
  ∧ generate_audio nlp lower engine resolve export_outcome b files text
      output_filename
    = match export_outcome (output_path_of output_filename) with
      | Written =>
          {| self := b; output_audio := silent 100; temp_files := [];
             disk := {[ resolve (output_path_of output_filename) ]} ∪ files;
             exported := Some (output_path_of output_filename, silent 100);
             stdout := [Generated (output_path_of output_filename)];
             tts_calls := [] |}
      | ExportRaises wrote_file =>
          {| self := b; output_audio := silent 100; temp_files := [];
             disk :=
               if wrote_file
               then {[ resolve (output_path_of output_filename) ]} ∪ files
               else files;
             exported := None; stdout := [GenerationError];
             tts_calls := [] |}
      end.
Proof.
  intros Hall.
  assert (split_sentences text = [text]) as Hsplit.
  { unfold split_sentences. rewrite split_scan_boundary_free; [done| |done].
    intros a c w b' -> Hc.
    rewrite (all_space_not_terminal (a ++ c :: w :: b') c Hall) in Hc; [done|].
    rewrite elem_of_app, elem_of_cons. auto. }
  assert (kept_sentence text = None) as Hk.
  { unfold kept_sentence. by rewrite strip_all_space. }
  split.
  - unfold segment_sentences. rewrite Hsplit. cbn [omap list_omap].
    by rewrite Hk.
  - unfold generate_audio, try_block. rewrite Hsplit.
    change (enumerate [text]) with [(0%nat, text)]. cbn [for_loop].
    rewrite loop_body_dropped by done.
    unfold remove_temp_files, export, report_error.
    by destruct (export_outcome (output_path_of output_filename)).
Qed.

(** X13: a text of whitespace only (the empty text included) is not an
    error: no sentence is kept, the engine is never called, the registry
    is untouched, and the track handed to the export is the leading silence
    alone.  When the export writes its file, that track is exported and the
    success line printed; when the export raises, a generation error is
    printed and nothing is exported. *)
Theorem blank_text_run (b : BookToSpeech) (files : gset str)
  (text output_filename : str) :
  Forall (λ c, isspace c = true) text →
  segment_sentences text = []
  ∧ generate_audio nlp lower engine resolve export_outcome b files text
      output_filename
    = match export_outcome (output_path_of output_filename) with
      | Written =>
          {| self := b; output_audio := silent 100; temp_files := [];
             disk := {[ resolve (output_path_of output_filename) ]} ∪ files;
             exported := Some (output_path_of output_filename, silent 100);
             stdout := [Generated (output_path_of output_filename)];
             tts_calls := [] |}
      | ExportRaises wrote_file =>
          {| self := b; output_audio := silent 100; temp_files := [];
             disk :=
               if wrote_file
               then {[ resolve (output_path_of output_filename) ]} ∪ files
               else files;
             exported := None; stdout := [GenerationError];
             tts_calls := [] |}
      end.
Proof. apply blank_run. Qed.

Lemma kept_items_snd items :
  (kept_items items).*2 = omap kept_sentence (items.*2).
Proof.
  induction items as [|[idx s] items IH]; [done|].
  rewrite fmap_cons. cbn [snd omap list_omap].
  destruct (kept_sentence s) as [sentence|] eqn:Hk.
  - rewrite (kept_items_cons_kept _ _ _ _ Hk), fmap_cons, IH. done.
  - by rewrite (kept_items_cons_dropped _ _ _ Hk).
Qed.

Lemma kept_items_fst items :
  (kept_items items).*1 `sublist_of` items.*1.
Proof.
  induction items as [|[idx s] items IH]; [done|].
  rewrite fmap_cons. cbn [fst].
  destruct (kept_sentence s) as [sentence|] eqn:Hk.
  - rewrite (kept_items_cons_kept _ _ _ _ Hk), fmap_cons. by apply sublist_skip.
  - rewrite (kept_items_cons_dropped _ _ _ Hk). by apply sublist_cons.
Qed.

Lemma kept_items_elem items idx sentence :
  (idx, sentence) ∈ kept_items items →
  ∃ piece, (idx, piece) ∈ items ∧ kept_sentence piece = Some sentence.
Proof.
  unfold kept_items. intros H.
  apply list_elem_of_omap in H as ([i piece] & Hin & Hk). simpl in Hk.
  destruct (kept_sentence piece) as [s|] eqn:E; [|done].
  injection Hk as <- <-. by exists piece.
Qed.

Lemma enumerate_fst_NoDup {A} (l : list A) : NoDup (enumerate l).*1.
Proof.
  apply NoDup_alt. intros i j x Hi Hj. unfold enumerate in *.
  rewrite list_lookup_fmap, list_lookup_imap in Hi.
  rewrite list_lookup_fmap, list_lookup_imap in Hj.
  destruct (l !! i); [|done]. destruct (l !! j); [|done].
  simpl in *. congruence.
Qed.

Lemma py_inj s t : py s = py t → s = t.
Proof.
  unfold py. intros H.
  rewrite <- (string_of_list_ascii_of_string s),
          <- (string_of_list_ascii_of_string t).
  f_equal. revert H.
  generalize (list_ascii_of_string s) (list_ascii_of_string t).
  induction l as [|a l IH]; intros [|a' l']; try done.
  rewrite !fmap_cons. intros [= Ha Hl]. f_equal; [|by apply IH].
  by rewrite <- (ascii_N_embedding a), <- (ascii_N_embedding a'), Ha.
Qed.

Lemma str_of_nat_inj i j : str_of_nat i = str_of_nat j → i = j.
Proof.
  unfold str_of_nat. intros H%py_inj.
  apply Unsigned.to_uint_inj.
  assert (Some (Nat.to_uint i) = Some (Nat.to_uint j)) as [= ->]; [|done].
  by rewrite <- !NilEmpty.usu, H.
Qed.

Lemma temp_path_of_inj i j : temp_path_of i = temp_path_of j → i = j.
Proof.
  unfold temp_path_of. intros H.
  apply app_inv_head, app_inv_tail in H. by apply str_of_nat_inj.
Qed.

Lemma plan_paths_NoDup (text : str) :
  NoDup (planned_file_path <$> plan nlp lower text).
Proof.
  assert (planned_file_path <$> plan nlp lower text
          = temp_path_of <$> (kept_items (enumerate (split_sentences text))).*1)
    as ->.
  { unfold plan. by rewrite <- !list_fmap_compose. }
  apply NoDup_fmap_2_strong.
  - intros i j _ _. apply temp_path_of_inj.
  - apply (sublist_NoDup _ _ (enumerate_fst_NoDup (split_sentences text))).
    apply kept_items_fst.
Qed.

Lemma carries_out_paths done calls :
  Forall2 carries_out done calls →
  call_file_path <$> calls = planned_file_path <$> done.
Proof.
  induction 1 as [|p c done calls [_ Hp] _ IH]; [done|].
  by rewrite !fmap_cons, Hp, IH.
Qed.

Lemma carries_out_texts done calls :
  Forall2 carries_out done calls →
  call_text <$> calls = planned_text <$> done.
Proof.
  induction 1 as [|p c done calls [Ht _] _ IH]; [done|].
  by rewrite !fmap_cons, Ht, IH.
Qed.

(** X14: the sentences are synthesized in the order of the text, each at
    most once and none skipped, up to the first call that fails: the calls
    made carry out a prefix of the plan (utterance of each kept sentence,
    file named after the index of its piece), and the whole plan when
    every call succeeds.  The utterances of the plan are those of the
    sentences kept by the segmenter. *)
Theorem calls_follow_plan (b : BookToSpeech) (files : gset str)
  (text output_filename : str) :
  let run := generate_audio nlp lower engine resolve export_outcome b files text output_filename in
  call_text <$> tts_calls run `prefix_of` planned_text <$> plan nlp lower text
  ∧ call_file_path <$> tts_calls run
    `prefix_of` planned_file_path <$> plan nlp lower text
  ∧ (Forall (is_loaded engine) (tts_calls run) →
     Forall2 carries_out (plan nlp lower text) (tts_calls run))
  ∧ planned_text <$> plan nlp lower text
    = (λ sentence, (detect_speaker_ml nlp lower sentence).2)
        <$> segment_sentences text.
Proof.
  intros run.
  destruct (generate_audio_trace b files text output_filename)
    as (done & todo & Hplan & Hcarry & _ & _ & _ & Hend).
  fold run in Hcarry, Hend.
  split; [|split; [|split]].
  - rewrite Hplan, fmap_app, (carries_out_texts _ _ Hcarry).
    by apply prefix_app_r.
  - rewrite Hplan, fmap_app, (carries_out_paths _ _ Hcarry).
    by apply prefix_app_r.
  - intros Hall.
    destruct Hend as [(-> & _)|((good & bad & Hcalls & _ & Hbad) & _)].
    + by rewrite Hplan, app_nil_r.
    + rewrite Hcalls in Hall. apply Forall_app in Hall as [_ Hall].
      rewrite Forall_singleton in Hall. apply loaded_is_loaded in Hall.
      congruence.
  - unfold plan, segment_sentences.
    rewrite <- (enumerate_snd (split_sentences text)) at 2.
    rewrite <- kept_items_snd, <- !list_fmap_compose. done.
Qed.

Lemma run_paths_NoDup (b : BookToSpeech) (files : gset str)
  (text output_filename : str) :
  NoDup (call_file_path
           <$> tts_calls (generate_audio nlp lower engine resolve export_outcome b files text
                            output_filename)).
Proof.
  destruct (generate_audio_trace b files text output_filename)
    as (done & todo & Hplan & Hcarry & _).
  rewrite (carries_out_paths _ _ Hcarry).
  pose proof (plan_paths_NoDup text) as Hnd.
  rewrite Hplan, fmap_app in Hnd. by apply NoDup_app in Hnd as [? _].
Qed.

(** X15: the temporary file of a sentence is determined by the index of
    its piece, and different indexes give different files, so the calls of
    a run write pairwise different files. *)
Theorem temp_files_distinct (b : BookToSpeech) (files : gset str)
  (text output_filename : str) :
  let run := generate_audio nlp lower engine resolve export_outcome b files text output_filename in
  (∀ i j, temp_path_of i = temp_path_of j → i = j)
  ∧ NoDup (call_file_path <$> tts_calls run).
Proof.
  intros run. split; [apply temp_path_of_inj|apply run_paths_NoDup].
Qed.

Lemma filter_all {A} (P : A → Prop) `{∀ x, Decision (P x)} (l : list A) :
  Forall P l → filter P l = l.
Proof.
  induction 1 as [|x l Hx _ IH]; [done|].
  by rewrite filter_cons_True, IH.
Qed.

(** X16: the registry after a run is the one obtained by assigning, in
    order, the speaker labels of the sentences that were processed; the
    voice passed to the engine for a sentence is the voice its label holds
    in that registry, so two sentences with the same label are synthesized
    with the same voice; the bindings held before the run are kept. *)
Theorem voices_follow_labels (b : BookToSpeech) (files : gset str)
  (text output_filename : str) :
  let run := generate_audio nlp lower engine resolve export_outcome b files text output_filename in
  ∃ labels,
    labels `prefix_of` planned_label <$> plan nlp lower text
    ∧ length labels = length (tts_calls run)
    ∧ self run = assign_voices labels b
    ∧ character_voices b ⊆ character_voices (self run)
    ∧ (∀ i label call,
         labels !! i = Some label → tts_calls run !! i = Some call →
         character_voices (self run) !! label = Some (call_speaker call))
    ∧ (∀ i j label ci cj,
         labels !! i = Some label → labels !! j = Some label →
         tts_calls run !! i = Some ci → tts_calls run !! j = Some cj →
         call_speaker ci = call_speaker cj).
Proof.
  intros run.
  destruct (generate_audio_trace b files text output_filename)
    as (done & todo & Hplan & Hcarry & Hself & Hvoice & _).
  fold run in Hcarry, Hself, Hvoice.
  assert (∀ i label call,
    (planned_label <$> done) !! i = Some label → tts_calls run !! i = Some call →
    character_voices (self run) !! label = Some (call_speaker call)) as Hv.
  { intros i label call Hl Hc. rewrite list_lookup_fmap in Hl.
    destruct (done !! i) as [p|] eqn:Hp; [|done]. injection Hl as <-.
    rewrite Forall2_lookup in Hvoice. specialize (Hvoice i).
    rewrite Hp, Hc in Hvoice. by inversion Hvoice. }
  exists (planned_label <$> done).
  split; [rewrite Hplan, fmap_app; by apply prefix_app_r|].
  split; [rewrite length_fmap; by eapply Forall2_length|].
  split; [done|].
  split.
  { rewrite Hself. apply map_subseteq_spec. intros l v.
    apply assign_voices_keeps. }
  split; [done|].
  intros i j label ci cj Hi Hj Hci Hcj.
  pose proof (Hv _ _ _ Hi Hci). pose proof (Hv _ _ _ Hj Hcj). congruence.
Qed.

Lemma run_paths_temp (b : BookToSpeech) (files : gset str)
  (text output_filename : str) (call : TtsCall) :
  call ∈ tts_calls (generate_audio nlp lower engine resolve export_outcome b
                      files text output_filename) →
  ∃ idx, call_file_path call = temp_path_of idx.
Proof.
  destruct (generate_audio_trace b files text output_filename)
    as (done & todo & Hplan & Hcarry & _).
  intros Hin. apply list_elem_of_lookup in Hin as [i Hi].
  destruct (Forall2_lookup_r _ _ _ _ _ Hcarry Hi) as (p & Hp & _ & Hpath).
  assert (p ∈ plan nlp lower text) as Hpin.
  { rewrite Hplan, elem_of_app. left. by eapply list_elem_of_lookup_2. }
  unfold plan in Hpin. apply list_elem_of_fmap in Hpin as ([idx s] & -> & _).
  exists idx. by rewrite Hpath.
Qed.

(** X17: when every call succeeds, every temporary file used is recorded
    and removed.  Files being told apart by the directory entry their path
    names, the files left are the files present before and what the export
    wrote, less the files named by the temporary paths of the run: a file
    that was already there under such a name is overwritten and removed,
    and so is the exported track itself when [output_filename] names the
    same file as one of those paths. *)
Theorem files_after_success (b : BookToSpeech) (files : gset str)
  (text output_filename : str) :
  let run :=
    generate_audio nlp lower engine resolve export_outcome b files text
      output_filename in
  let out := output_path_of output_filename in
  let temps := resolve <$> (call_file_path <$> tts_calls run) in
  Forall (is_loaded engine) (tts_calls run) →
  temp_files run = call_file_path <$> tts_calls run
  ∧ disk run
    = (export_leaves resolve export_outcome out ∪ files) ∖ list_to_set temps
  ∧ (∀ call, call ∈ tts_calls run → resolve (call_file_path call) ∉ disk run)
  ∧ (resolve out ∈ temps → resolve out ∉ disk run).
Proof.
  intros run out temps Hall.
  assert (Forall (λ c, loaded engine c = true) (tts_calls run)) as Hl.
  { eapply Forall_impl; [exact Hall|]. intros c. apply loaded_is_loaded. }
  assert (Forall (λ c, leaves_file engine c = true) (tts_calls run)) as Hlf.
  { eapply Forall_impl; [exact Hl|]. intros c. apply loaded_leaves_file. }
  destruct (generate_audio_trace b files text output_filename)
    as (done & todo & _ & _ & _ & _ & Htemp & Hend).
  fold run in Htemp, Hend.
  rewrite (filter_all _ _ Hl) in Htemp.
  destruct Hend as [(_ & _ & _ & Hdisk)|((good & bad & Hcalls & _ & Hbad) & _)].
  2:{ rewrite Hcalls in Hl. apply Forall_app in Hl as [_ Hl].
      rewrite Forall_singleton in Hl. congruence. }
  rewrite (filter_all _ _ Hlf), Htemp in Hdisk.
  assert (disk run
          = (export_leaves resolve export_outcome out ∪ files)
            ∖ list_to_set temps) as Hd.
  { rewrite Hdisk. apply set_eq. intros x.
    rewrite !elem_of_difference, !elem_of_union. tauto. }
  split; [done|]. split; [done|]. split.
  - intros call Hin. rewrite Hd, elem_of_difference, elem_of_list_to_set.
    intros [_ Hn]. apply Hn. unfold temps.
    apply list_elem_of_fmap. exists (call_file_path call). split; [done|].
    apply list_elem_of_fmap. by exists call.
  - intros Hin. rewrite Hd, elem_of_difference, elem_of_list_to_set.
    by intros [_ Hn].
Qed.

(** X18: when a call fails, the files recorded and removed are those of
    the calls before it.  The file of the failed call is not recorded: if
    the engine left it on disk it is still there after the run, whatever
    the text (different temporary names naming different files); if not,
    the run leaves no file that was not there before. *)
Theorem files_after_failure (b : BookToSpeech) (files : gset str)
  (text output_filename : str) (good : list TtsCall) (bad : TtsCall) :
  let run :=
    generate_audio nlp lower engine resolve export_outcome b files text
      output_filename in
  tts_calls run = good ++ [bad] → ¬ is_loaded engine bad →
  temp_files run = call_file_path <$> good
  ∧ disk run
    = ((if leaves_file engine bad then {[ resolve (call_file_path bad) ]} else ∅)
       ∪ files)
      ∖ list_to_set (resolve <$> (call_file_path <$> good))
  ∧ (leaves_file engine bad = true →
     (∀ i j, resolve (temp_path_of i) = resolve (temp_path_of j) → i = j) →
     resolve (call_file_path bad) ∈ disk run)
  ∧ (leaves_file engine bad = false → disk run ⊆ files).
Proof.
  intros run Hcalls Hfail.
  assert (loaded engine bad = false) as Hbad.
  { destruct (loaded engine bad) eqn:E; [|done].
    by apply loaded_is_loaded in E. }
  pose proof (run_paths_NoDup b files text output_filename) as Hnd.
  fold run in Hnd. rewrite Hcalls, fmap_app in Hnd.
  apply NoDup_app in Hnd as (_ & Hdisj & _).
  pose proof (run_paths_temp b files text output_filename) as Htemps.
  fold run in Htemps. rewrite Hcalls in Htemps.
  destruct (generate_audio_trace b files text output_filename)
    as (done & todo & _ & _ & _ & _ & Htemp & Hend).
  fold run in Htemp, Hend. rewrite Hcalls in Htemp, Hend.
  destruct Hend as [(_ & Hall & _)|((good' & bad' & Heq & Hgood & _) & _ & Hdisk)].
  { apply Forall_app in Hall as [_ Hall]. rewrite Forall_singleton in Hall.
    congruence. }
  apply app_inj_tail in Heq as [<- <-].
  assert (filter (λ c, loaded engine c = true) (good ++ [bad]) = good) as Hfl.
  { rewrite filter_app, (filter_all _ _ Hgood).
    rewrite filter_cons_False by congruence. by rewrite filter_nil, app_nil_r. }
  assert (Forall (λ c, leaves_file engine c = true) good) as Hlg.
  { eapply Forall_impl; [exact Hgood|]. intros c. apply loaded_leaves_file. }
  rewrite Hfl in Htemp. rewrite Htemp in Hdisk.
  assert (disk run
    = ((if leaves_file engine bad then {[ resolve (call_file_path bad) ]} else ∅)
       ∪ files)
      ∖ list_to_set (resolve <$> (call_file_path <$> good))) as Hd.
  { rewrite Hdisk, filter_app, (filter_all _ _ Hlg).
    destruct (leaves_file engine bad) eqn:Hlf.
    - rewrite filter_cons_True by done. rewrite filter_nil, !fmap_app.
      change (resolve <$> (call_file_path <$> [bad]))
        with [resolve (call_file_path bad)].
      apply set_eq. intros x.
      rewrite !elem_of_difference, !elem_of_union, !elem_of_list_to_set,
        elem_of_app, list_elem_of_singleton, elem_of_singleton.
      tauto.
    - rewrite filter_cons_False by congruence. rewrite filter_nil, app_nil_r.
      apply set_eq. intros x.
      rewrite !elem_of_difference, !elem_of_union, !elem_of_list_to_set,
        elem_of_empty.
      tauto. }
  split; [done|]. split; [done|]. split.
  - intros Hlf Hinj. rewrite Hd, Hlf, elem_of_difference, elem_of_union,
      elem_of_singleton, elem_of_list_to_set.
    split; [by left|]. intros Hin.
    apply list_elem_of_fmap in Hin as (path & Hres & Hpath).
    destruct (Htemps bad) as [i Hi]; [rewrite elem_of_app; right; by left|].
    apply list_elem_of_fmap in Hpath as (c & -> & Hc).
    destruct (Htemps c) as [j Hj]; [rewrite elem_of_app; by left|].
    rewrite Hi, Hj in Hres. apply Hinj in Hres as ->.
    apply (Hdisj (call_file_path c)).
    + apply list_elem_of_fmap. by exists c.
    + rewrite Hj, <- Hi. by left.
  - intros Hlf. rewrite Hd, Hlf. intros x.
    rewrite elem_of_difference, elem_of_union. intros [[Hx|Hx] _]; [|done].
    by apply elem_of_empty in Hx.
Qed.

End PipelineMore.

Lemma blank_text_run_witness :
  exported (generate_audio no_parse id engine_ok id export_writes init ∅ (py "  ") (py "out.wav"))
  = Some (py "output_audio/out.wav", [Silence 100]).
Proof.
  destruct (blank_text_run no_parse id engine_ok id export_writes init ∅ (py "  ") (py "out.wav"))
    as [_ ->].
  - by repeat constructor.
  - reflexivity.
Defined.

Lemma calls_follow_plan_witness :
  Forall2 carries_out (plan no_parse id (py "Hi. Yo."))
    (tts_calls (generate_audio no_parse id engine_ok id export_writes init ∅ (py "Hi. Yo.")
                  (py "out.wav"))).
Proof.
  apply (calls_follow_plan no_parse id engine_ok id export_writes init ∅ (py "Hi. Yo.") (py "out.wav")).
  apply Forall_forall. intros call _. by exists [Sound [1]].
Defined.

Lemma temp_files_distinct_witness :
  NoDup (call_file_path
           <$> tts_calls (generate_audio no_parse id engine_ok id export_writes init ∅
                            (py "Hi. Yo.") (py "out.wav"))).
Proof.
  apply (temp_files_distinct no_parse id engine_ok id export_writes init ∅ (py "Hi. Yo.")
           (py "out.wav")).
Defined.

Lemma voices_follow_labels_witness :
  ∃ labels,
    labels `prefix_of` planned_label <$> plan no_parse id (py "Hi. Yo.")
    ∧ self (generate_audio no_parse id engine_fails_first id export_writes init ∅ (py "Hi. Yo.")
              (py "out.wav"))
      = assign_voices labels init.
Proof.
  destruct (voices_follow_labels no_parse id engine_fails_first id export_writes init ∅
              (py "Hi. Yo.") (py "out.wav")) as (labels & Hp & _ & Hs & _).
  by exists labels.
Defined.

Lemma files_after_success_witness :
  resolve_dot (output_path_of (py "./temp_0.wav"))
  ∉ disk (generate_audio no_parse id engine_ok resolve_dot export_writes init ∅
            (py "Hi.") (py "./temp_0.wav")).
Proof.
  destruct (files_after_success no_parse id engine_ok resolve_dot export_writes
              init ∅ (py "Hi.") (py "./temp_0.wav")) as (_ & _ & _ & Hgone).
  - apply Forall_forall. intros call _. by exists [Sound [1]].
  - apply Hgone. vm_compute. left.
Defined.

Lemma files_after_failure_witness :
  temp_path_of 0
  ∈ disk (generate_audio no_parse id engine_unloadable id export_writes init ∅
            (py "Hi.") (py "out.wav")).
Proof.
  destruct (files_after_failure no_parse id engine_unloadable id export_writes
              init ∅ (py "Hi.") (py "out.wav") []
              (mkTtsCall ([DQUOTE] ++ py "Hi." ++ [DQUOTE]) p225 (temp_path_of 0)))
    as (_ & _ & Hleft & _).
  - reflexivity.
  - intros [segment H]. discriminate H.
  - apply Hleft; [reflexivity|]. intros i j. apply temp_path_of_inj.
Defined.

(** ** Text extraction *)

Example normalize_page_sample :
  normalize_page (py "Hi  , you" ++ [LF; LF] ++ py "there" ++ [LF] ++ py " !")
  = py "Hi, you there!".
Proof. reflexivity. Qed.

Lemma elem_of_close_up c pending text :
  c ∈ close_up pending text → c ∈ pending ∨ c ∈ text.
Proof.
  revert pending. induction text as [|x rest IH]; intros pending; [by left|].
  simpl. destruct (isspace x).
  - intros [H|H]%IH; [|right; by right].
    apply elem_of_app in H as [H|H]; [by left|].
    apply list_elem_of_singleton in H as ->. right. by left.
  - destruct (is_punct x).
    + intros [->|H]%elem_of_cons; [right; by left|].
      apply IH in H as [H|H]; [by apply elem_of_nil in H|right; by right].
    + intros [H|H]%elem_of_app; [by left|].
      apply elem_of_cons in H as [->|H]; [right; by left|].
      apply IH in H as [H|H]; [by apply elem_of_nil in H|right; by right].
Qed.

Lemma elem_of_join_lines c in_run text :
  c ∈ join_lines in_run text → c ≠ LF ∧ (c = SPACE ∨ c ∈ text).
Proof.
  revert in_run. induction text as [|x rest IH]; intros in_run.
  - by intros ?%elem_of_nil.
  - simpl. destruct (N.eqb_spec x LF) as [->|Hx].
    + destruct in_run.
      * intros [? [?|?]]%IH; (split; [done|]); [by left|right; by right].
      * intros [->|[? [?|?]]%IH]%elem_of_cons; (split; [done|]);
          [by left|by left|right; by right].
    + intros [->|[? [?|?]]%IH]%elem_of_cons; (split; [done|]);
        [right; by left|by left|right; by right].
Qed.

Lemma elem_of_straighten_quotes c text :
  c ∈ straighten_quotes text → c ≠ LSQUO ∧ c ≠ RSQUO.
Proof.
  unfold straighten_quotes. intros (x & -> & _)%list_elem_of_fmap.
  destruct (N.eqb_spec x LSQUO) as [->|H1]; [done|].
  destruct (N.eqb_spec x RSQUO) as [->|H2]; [done|]. done.
Qed.

Lemma elem_of_normalize_page c text :
  c ∈ normalize_page text → c ≠ LF ∧ c ≠ LSQUO ∧ c ≠ RSQUO.
Proof.
  unfold normalize_page. intros [Hlf [->|H]]%elem_of_join_lines; [done|].
  split; [done|].
  apply elem_of_close_up in H as [H|H]; [by apply elem_of_nil in H|].
  by apply elem_of_straighten_quotes in H.
Qed.

Lemma elem_of_join_with_space c parts :
  c ∈ join_with_space parts → c = SPACE ∨ ∃ part, part ∈ parts ∧ c ∈ part.
Proof.
  induction parts as [|part [|next rest] IH].
  - by intros ?%elem_of_nil.
  - intros H. right. exists part. split; [by left|done].
  - change (join_with_space (part :: next :: rest))
      with (part ++ SPACE :: join_with_space (next :: rest)).
    intros [H|H]%elem_of_app.
    + right. exists part. split; [by left|done].
    + apply elem_of_cons in H as [->|H]; [by left|].
      destruct (IH H) as [->|(q & Hq & Hc)]; [by left|].
      right. exists q. split; [by right|done].
Qed.

(** X19: extraction fails exactly when the document cannot be opened or
    one of its first three pages yields no text; pages after the third are
    never read, so a page without text among them does no harm. *)
Theorem extraction_failure (pdf : option (list (option str))) :
  (extract_text_from_pdf pdf = None
   ↔ pdf = None ∨ ∃ pages, pdf = Some pages ∧ None ∈ take 3 pages)
  ∧ (∀ pages, extract_text_from_pdf (Some pages)
              = extract_text_from_pdf (Some (take 3 pages))).
Proof.
  split.
  - destruct pdf as [pages|]; simpl; [|split; [by left|done]].
    destruct (mapM id (take 3 pages)) as [texts|] eqn:E; simpl.
    + split; [done|]. intros [?|(pages' & [= <-] & Hin)]; [done|].
      apply mapM_Some_1 in E.
      apply list_elem_of_lookup in Hin as [i Hi].
      destruct (Forall2_lookup_l _ _ _ _ _ E Hi) as (x & _ & Hx). done.
    + split; [|done]. intros _. right. exists pages. split; [done|].
      apply mapM_None_1 in E. apply Exists_exists in E as ([x|] & Hin & Hx).
      * by inversion Hx.
      * done.
  - intros pages. simpl. by rewrite take_take, Nat.min_id.
Qed.

Lemma extracted_clean_chars (pdf : option (list (option str))) (text : str) :
  extract_text_from_pdf pdf = Some text →
  ∀ c, c ∈ text → c ≠ LF ∧ c ≠ LSQUO ∧ c ≠ RSQUO.
Proof.
  destruct pdf as [pages|]; simpl; [|done].
  destruct (mapM id (take 3 pages)) as [texts|]; simpl; [|done].
  intros [= <-].
  intros c [->|(part & Hpart & Hc)]%elem_of_join_with_space; [done|].
  apply list_elem_of_fmap in Hpart as (t & -> & _).
  by apply elem_of_normalize_page in Hc.
Qed.

(** X20: the extracted text contains no line feed and no curly single
    quote. *)
Theorem extracted_text_clean (pdf : option (list (option str))) (text : str) :
  extract_text_from_pdf pdf = Some text →
  (LF ∉ text) ∧ (LSQUO ∉ text) ∧ (RSQUO ∉ text).
Proof.
  intros Hpdf. pose proof (extracted_clean_chars pdf text Hpdf) as H.
  repeat split; intros Hin; by destruct (H _ Hin) as (? & ? & ?).
Qed.

Lemma extracted_text_clean_witness :
  (LF ∉ py "Hi, you there! Bye.")
  ∧ (LSQUO ∉ py "Hi, you there! Bye.") ∧ (RSQUO ∉ py "Hi, you there! Bye.").
Proof.
  apply (extracted_text_clean
    (Some [Some (py "Hi  , you" ++ [LF; LF] ++ py "there" ++ [LF] ++ py " !");
           Some (py "Bye.")])).
  reflexivity.
Defined.

Lemma elem_of_split_scan c piece in_gap after_terminal cur text :
  piece ∈ split_scan in_gap after_terminal cur text → c ∈ piece →
  c ∈ cur ∨ c ∈ text.
Proof.
  revert in_gap after_terminal cur.
  induction text as [|x rest IH]; intros in_gap after_terminal cur.
  - simpl. intros ->%list_elem_of_singleton. by left.
  - simpl. intros Hpiece Hc.
    assert (∀ g t, piece ∈ split_scan g t (cur ++ [x]) rest → c ∈ cur ∨ c ∈ x :: rest)
      as Hsnoc.
    { intros g t H. destruct (IH _ _ _ H Hc) as [Hin|Hin]; [|right; by right].
      apply elem_of_app in Hin as [?|Hx]; [by left|].
      apply list_elem_of_singleton in Hx as ->. right. by left. }
    assert (∀ g t cur', piece ∈ split_scan g t cur' rest →
              c ∈ cur' ∨ c ∈ x :: rest) as Hsame.
    { intros g t cur' H. destruct (IH _ _ _ H Hc); [by left|right; by right]. }
    destruct (isspace x); [|by eapply Hsnoc].
    destruct in_gap; [by eapply Hsame|].
    destruct after_terminal; [|by eapply Hsnoc].
    apply elem_of_cons in Hpiece as [->|Hpiece]; [by left|].
    destruct (Hsame _ _ _ Hpiece) as [Hnil|?]; [|by right].
    by apply elem_of_nil in Hnil.
Qed.

Lemma elem_of_lstrip c s : c ∈ lstrip s → c ∈ s.
Proof.
  destruct (lstrip_suffix s) as [p Hp]. intros H.
  rewrite Hp. apply elem_of_app. by right.
Qed.

Lemma elem_of_strip c s : c ∈ strip s → c ∈ s.
Proof.
  unfold strip, rstrip. intros H.
  apply elem_of_lstrip in H. rewrite elem_of_reverse in H.
  apply elem_of_lstrip in H. by rewrite elem_of_reverse in H.
Qed.

Lemma elem_of_segment_sentences c sentence text :
  sentence ∈ segment_sentences text → c ∈ sentence → c ∈ text.
Proof.
  unfold segment_sentences.
  intros (piece & Hpiece & Hk)%list_elem_of_omap Hc.
  apply kept_sentence_Some in Hk as [-> _]. apply elem_of_strip in Hc.
  destruct (elem_of_split_scan _ _ _ _ _ _ Hpiece Hc) as [H|H]; [|done].
  by apply elem_of_nil in H.
Qed.

(** X21: on a text produced by [extract_text_from_pdf], the utterance of
    every sentence is built around the content between the first quote
    character of the sentence and the next one: quoted text is never cut
    off by a line feed, because the extracted text has none. *)
Theorem extracted_text_quotes (nlp : str → list Token) (lower : str → str)
  (pdf : option (list (option str))) (text sentence : str) :
  extract_text_from_pdf pdf = Some text →
  sentence ∈ segment_sentences text →
  (detect_speaker_ml nlp lower sentence).2
  = utterance_of (first_quoted sentence) sentence.
Proof.
  intros Hpdf Hs.
  rewrite detect_speaker_ml_utterance, first_match_one_line; [done|].
  intros Hlf. apply (elem_of_segment_sentences _ _ _ Hs) in Hlf.
  by destruct (extracted_clean_chars pdf text Hpdf LF Hlf) as [? _].
Qed.

Lemma extracted_text_quotes_witness :
  (detect_speaker_ml no_parse id (py "He said, 'Go now.' Then left.")).2
  = [DQUOTE] ++ py "Go now." ++ [DQUOTE].
Proof.
  rewrite (extracted_text_quotes no_parse id
             (Some [Some (py "He said , 'Go now.' Then left.")])
             (py "He said, 'Go now.' Then left.")
             (py "He said, 'Go now.' Then left.")).
  - reflexivity.
  - reflexivity.
  - compute_done.
Defined.

Lemma is_punct_not_space c : is_punct c = true → isspace c = false.
Proof.
  unfold is_punct. intros H.
  repeat (apply orb_prop in H as [H|H]); apply N.eqb_eq in H as ->; reflexivity.
Qed.

(** [tight], one character at a time. *)
Lemma tight_nil : tight [].
Proof. intros a w p b H. by destruct a. Qed.

Lemma tight_cons w rest :
  (isspace w = true → ¬ starts_punct rest) → tight rest → tight (w :: rest).
Proof.
  intros Hw Hrest [|x a] w' p b Heq Hs.
  - injection Heq as <- ->. simpl in Hw.
    destruct (is_punct p) eqn:E; [|done]. by destruct (Hw Hs).
  - injection Heq as _ ->. by apply (Hrest a w' p b).
Qed.

Lemma tight_inv w rest :
  tight (w :: rest) → (isspace w = true → ¬ starts_punct rest) ∧ tight rest.
Proof.
  intros H. split.
  - intros Hw Hp. destruct rest as [|p b]; [done|]. simpl in Hp.
    rewrite (H [] w p b eq_refl Hw) in Hp. done.
  - intros a w' p b ->. by apply (H (w :: a) w' p b).
Qed.

Lemma tight_after_space pending rest :
  Forall (λ c, isspace c = true) pending → ¬ starts_punct rest → tight rest →
  tight (pending ++ rest) ∧ ¬ starts_punct (pending ++ rest).
Proof.
  intros Hall Hrest Ht. induction Hall as [|w pending Hw _ [IHt IHp]]; [done|].
  split.
  - simpl. by apply tight_cons.
  - simpl. intros Hp. apply is_punct_not_space in Hp. congruence.
Qed.

Lemma close_up_tight pending text :
  Forall (λ c, isspace c = true) pending → tight (close_up pending text).
Proof.
  revert pending. induction text as [|c rest IH]; intros pending Hall.
  - simpl. rewrite <- (app_nil_r pending).
    by apply tight_after_space; [|intros []|apply tight_nil].
  - simpl. destruct (isspace c) eqn:Ec.
    + apply IH. apply Forall_app. split; [done|]. by repeat constructor.
    + assert (tight (c :: close_up [] rest)) as Hc.
      { apply tight_cons; [congruence|]. by apply IH. }
      destruct (is_punct c) eqn:Ep; [done|].
      apply tight_after_space; [done| |done]. simpl. congruence.
Qed.

Lemma join_lines_after_feed text :
  ¬ starts_punct text → tight text → ¬ starts_punct (join_lines true text).
Proof.
  induction text as [|c rest IH]; intros Hp Ht; [done|].
  simpl. destruct (N.eqb_spec c LF) as [->|Hc]; [|done].
  apply tight_inv in Ht as [Hnext Ht]. apply IH; [|done]. by apply Hnext.
Qed.

Lemma join_lines_start text :
  starts_punct (join_lines false text) → starts_punct text.
Proof.
  destruct text as [|c rest]; [done|]. simpl.
  by destruct (N.eqb_spec c LF) as [->|Hc].
Qed.

Lemma join_lines_tight in_run text :
  tight text → (in_run = true → ¬ starts_punct text) →
  tight (join_lines in_run text).
Proof.
  revert in_run. induction text as [|c rest IH]; intros in_run Ht Hrun.
  - apply tight_nil.
  - apply tight_inv in Ht as [Hnext Ht]. simpl.
    destruct (N.eqb_spec c LF) as [->|Hc].
    + assert (¬ starts_punct rest) as Hrest by (by apply Hnext).
      destruct in_run; [by apply IH|].
      apply tight_cons; [|by apply IH].
      intros _. by apply join_lines_after_feed.
    + apply tight_cons; [|by apply IH].
      intros Hs Hp. apply (Hnext Hs). by apply join_lines_start.
Qed.

(** X22: in the normalized text of a page no whitespace is left
    immediately before one of [.,!?]: the whitespace that stood there,
    line feeds included, has been removed. *)
Theorem normalized_page_tight (text : str) : tight (normalize_page text).
Proof.
  unfold normalize_page. apply join_lines_tight; [|done].
  by apply close_up_tight.
Qed.

Lemma normalized_page_tight_witness : is_punct 121 = false.
Proof.
  apply (normalized_page_tight (py "Hi  , you") (py "Hi,") 32%N 121%N (py "ou"));
    reflexivity.
Defined.

(** ** Chunking *)

Example chunk_text_sample :
  chunk_text (py "One. Two. Three four.") 11
  = [py "One. Two."; py "Three four."].
Proof. reflexivity. Qed.

Lemma rstrip_snoc_space s w : isspace w = true → rstrip (s ++ [w]) = rstrip s.
Proof. intros Hw. unfold rstrip. rewrite reverse_snoc. simpl. by rewrite Hw. Qed.

Lemma strip_snoc_space s w : isspace w = true → strip (s ++ [w]) = strip s.
Proof. intros Hw. unfold strip. by rewrite rstrip_snoc_space. Qed.

Lemma length_lstrip s : (length (lstrip s) ≤ length s)%nat.
Proof.
  destruct (lstrip_suffix s) as [p Hp]. rewrite Hp at 2.
  rewrite length_app. lia.
Qed.

Lemma length_strip s : (length (strip s) ≤ length s)%nat.
Proof.
  unfold strip, rstrip.
  pose proof (length_lstrip (reverse (lstrip (reverse s)))) as H1.
  pose proof (length_lstrip (reverse s)) as H2.
  rewrite !length_reverse in *. lia.
Qed.

Lemma current_ok_strip chunk_size sentences current :
  current_ok chunk_size sentences current → current ≠ [] →
  chunk_ok chunk_size sentences (strip current).
Proof.
  intros [->|(body & -> & Hb)] Hne; [done|].
  rewrite strip_snoc_space by done. destruct Hb as [Hlen|Hin].
  - left. pose proof (length_strip body). unfold len in *.
    rewrite length_app in Hlen. simpl in Hlen. lia.
  - right. by exists body.
Qed.

Lemma chunk_step_ok chunk_size all state sentence :
  sentence ∈ all →
  Forall (chunk_ok chunk_size all) state.1 → current_ok chunk_size all state.2 →
  Forall (chunk_ok chunk_size all) (chunk_step chunk_size state sentence).1
  ∧ current_ok chunk_size all (chunk_step chunk_size state sentence).2.
Proof.
  intros Hin Hchunks Hcur. destruct state as [chunks current]. simpl in *.
  unfold chunk_step. simpl.
  destruct (Z.ltb_spec (len current + len sentence) chunk_size) as [Hlt|Hge]; simpl.
  - split; [done|]. right. exists (current ++ sentence).
    split; [by rewrite <- app_assoc|]. left.
    unfold len in *. rewrite !length_app. simpl. lia.
  - split.
    + destruct current as [|c t] eqn:E; [done|].
      apply Forall_app. split; [done|]. apply Forall_singleton.
      by apply current_ok_strip.
    + right. exists sentence. split; [done|]. by right.
Qed.

Lemma chunk_loop_ok chunk_size all sentences state :
  sentences ⊆ all →
  Forall (chunk_ok chunk_size all) state.1 → current_ok chunk_size all state.2 →
  Forall (chunk_ok chunk_size all)
    (chunk_flush (fold_left (chunk_step chunk_size) sentences state)).
Proof.
  revert state. induction sentences as [|s sentences IH]; intros state Hsub Hc Hcur.
  - destruct state as [chunks [|c t]]; simpl in *; [done|].
    unfold chunk_flush. simpl.
    apply Forall_app. split; [done|]. apply Forall_singleton.
    by apply current_ok_strip.
  - simpl.
    destruct (chunk_step_ok chunk_size all state s) as [H1 H2]; [|done|done|].
    { apply Hsub. by left. }
    apply IH; [|done|done]. intros x Hx. apply Hsub. by right.
Qed.

(** X23: every chunk is shorter than [chunk_size], or else is a single
    sentence of the text, stripped (a sentence too long to fit is never
    cut). *)
Theorem chunk_bound (text : str) (chunk_size : Z) (chunk : str) :
  chunk ∈ chunk_text text chunk_size →
  len chunk < chunk_size
  ∨ ∃ sentence, sentence ∈ split_sentences text ∧ chunk = strip sentence.
Proof.
  intros Hin.
  assert (Forall (chunk_ok chunk_size (split_sentences text))
            (chunk_text text chunk_size)) as H.
  { apply chunk_loop_ok; [done|constructor|by left]. }
  rewrite Forall_forall in H. by apply H.
Qed.

Lemma chunk_bound_witness :
  len (py "One. Two.") < 11
  ∨ ∃ sentence, sentence ∈ split_sentences (py "One. Two. Three four.")
                ∧ py "One. Two." = strip sentence.
Proof.
  apply (chunk_bound (py "One. Two. Three four.") 11 (py "One. Two.")).
  vm_compute. left.
Defined.

Lemma visible_snoc_space s : visible (s ++ [SPACE]) = visible s.
Proof. rewrite visible_app. change (visible [SPACE]) with (@nil N). by rewrite app_nil_r. Qed.

Lemma visible_concat_snoc chunks chunk :
  visible (mjoin (chunks ++ [chunk])) = visible (mjoin chunks) ++ visible chunk.
Proof.
  rewrite join_app, visible_app. cbn [mjoin list_join]. by rewrite app_nil_r.
Qed.

Lemma visible_chunk_flush state :
  visible (mjoin (chunk_flush state)) = visible (mjoin state.1) ++ visible state.2.
Proof.
  unfold chunk_flush. destruct state.2 as [|c t]; [by rewrite app_nil_r|].
  by rewrite visible_concat_snoc, visible_strip.
Qed.

Lemma visible_chunk_loop chunk_size sentences state :
  visible (mjoin (chunk_flush (fold_left (chunk_step chunk_size) sentences state)))
  = visible (mjoin state.1) ++ visible state.2 ++ visible (mjoin sentences).
Proof.
  revert state. induction sentences as [|s sentences IH]; intros state.
  - simpl. by rewrite visible_chunk_flush, app_nil_r.
  - simpl. rewrite IH. change (mjoin (s :: sentences)) with (s ++ mjoin sentences).
    rewrite (visible_app s). unfold chunk_step.
    destruct (_ <? _); cbn [fst snd].
    + rewrite visible_app, visible_snoc_space. by rewrite <- !app_assoc.
    + rewrite visible_snoc_space. destruct state.2 as [|c t].
      * done.
      * rewrite visible_concat_snoc, visible_strip. by rewrite <- !app_assoc.
Qed.

(** X24: chunking loses nothing but whitespace: the characters that are
    not whitespace are the same, in the same order, in the text and in the
    chunks put end to end. *)
Theorem chunks_keep_visible_text (text : str) (chunk_size : Z) :
  visible (mjoin (chunk_text text chunk_size)) = visible text.
Proof.
  unfold chunk_text. rewrite visible_chunk_loop. simpl.
  unfold split_sentences. by rewrite visible_split_scan.
Qed.

Lemma chunk_step_current chunk_size state sentence :
  (chunk_step chunk_size state sentence).2 ≠ [].
Proof.
  unfold chunk_step. destruct (_ <? _); cbn [snd].
  - destruct state.2; [by destruct sentence|done].
  - by destruct sentence.
Qed.

Lemma chunk_loop_small chunk_size sentences chunks s :
  chunk_size ≤ 0 →
  chunk_flush (fold_left (chunk_step chunk_size) sentences (chunks, s ++ [SPACE]))
  = chunks ++ [strip s] ++ (strip <$> sentences).
Proof.
  intros Hsize. revert chunks s.
  induction sentences as [|t sentences IH]; intros chunks s.
  - simpl. unfold chunk_flush. simpl.
    rewrite strip_snoc_space by done. by destruct s.
  - cbn [fold_left]. unfold chunk_step at 2. cbn [fst snd].
    destruct (Z.ltb_spec (len (s ++ [SPACE]) + len t) chunk_size) as [Hlt|_].
    { unfold len in Hlt. lia. }
    rewrite strip_snoc_space by done.
    assert (match s ++ [SPACE] with
            | [] => chunks
            | _ :: _ => chunks ++ [strip s]
            end = chunks ++ [strip s]) as -> by (by destruct s).
    rewrite IH, fmap_cons. by rewrite <- !app_assoc.
Qed.

Lemma split_scan_nonempty in_gap after_terminal cur text :
  ∃ s rest, split_scan in_gap after_terminal cur text = s :: rest.
Proof.
  revert in_gap after_terminal cur.
  induction text as [|c text IH]; intros in_gap after_terminal cur;
    [by eexists _, _|].
  simpl. destruct (isspace c); [|apply IH].
  destruct in_gap; [apply IH|].
  destruct after_terminal; [by eexists _, _|apply IH].
Qed.

(** X25: [chunk_text] always returns at least one chunk, whatever the
    text and the size; with a size of zero or less, every piece of the text
    is a chunk of its own. *)
Theorem chunk_text_edges (text : str) (chunk_size : Z) :
  chunk_text text chunk_size ≠ []
  ∧ (chunk_size ≤ 0 → chunk_text text chunk_size = strip <$> split_sentences text).
Proof.
  unfold chunk_text.
  destruct (split_scan_nonempty false false [] text) as (s & rest & Hs).
  unfold split_sentences. rewrite Hs.
  split.
  - cbn [fold_left].
    assert (∀ sentences state, state.2 ≠ [] →
      chunk_flush (fold_left (chunk_step chunk_size) sentences state) ≠ []) as H.
    { induction sentences as [|t sentences IH]; intros state Hne.
      - simpl. unfold chunk_flush. destruct state.2; [done|].
        by destruct state.1.
      - simpl. apply IH, chunk_step_current. }
    apply H, chunk_step_current.
  - intros Hsize. cbn [fold_left]. unfold chunk_step at 2. cbn [fst snd].
    destruct (Z.ltb_spec (len (@nil N) + len s) chunk_size) as [Hlt|_].
    { unfold len in Hlt. simpl in Hlt. lia. }
    by rewrite chunk_loop_small.
Qed.

Lemma chunk_text_edges_witness :
  chunk_text (py "One.  Two. ") 0 = [py "One."; py "Two."; []].
Proof.
  destruct (chunk_text_edges (py "One.  Two. ") 0) as [_ H].
  rewrite H by lia. reflexivity.
Defined.

(** ** The script of [sample.py] *)

(** X26: the script reports a failure exactly when the extraction fails
    or gives the empty text; a text made of whitespace only, such as the
    single space obtained from two pages without any text, is processed
    like any other and gives a track that is the leading silence alone,
    exported as [output_audio/chapter_1.wav] whenever that export writes
    its file. *)
Theorem main_outcomes (nlp : str → list Token) (lower : str → str)
  (engine : TtsCall → Synthesis) (resolve : str → str)
  (export_outcome : str → Export) (pdf : option (list (option str)))
  (files : gset str) :
  (main nlp lower engine resolve export_outcome pdf files = None
   ↔ extract_text_from_pdf pdf = None ∨ extract_text_from_pdf pdf = Some [])
  ∧ (∀ text, extract_text_from_pdf pdf = Some text → text ≠ [] →
       Forall (λ c, isspace c = true) text →
       ∃ run, main nlp lower engine resolve export_outcome pdf files = Some run
              ∧ output_audio run = silent 100
              ∧ exported run
                = match export_outcome (py "output_audio/chapter_1.wav") with
                  | Written =>
                      Some (py "output_audio/chapter_1.wav", silent 100)
                  | ExportRaises _ => None
                  end
              ∧ tts_calls run = []).
Proof.
  unfold main. split.
  - destruct (extract_text_from_pdf pdf) as [[|c t]|].
    + split; [by right|done].
    + split; [done|]. by intros [?|?].
    + split; [by left|done].
  - intros text -> Hne Hall. destruct text as [|c t]; [done|].
    eexists. split; [done|].
    destruct (blank_run nlp lower engine resolve export_outcome init files
                (c :: t) (py "chapter_1.wav") Hall) as [_ ->].
    change (output_path_of (py "chapter_1.wav"))
      with (py "output_audio/chapter_1.wav").
    by destruct (export_outcome (py "output_audio/chapter_1.wav")).
Qed.

Lemma main_outcomes_witness :
  ∃ run, main no_parse id engine_ok id export_writes (Some [Some []; Some []]) ∅
         = Some run
         ∧ output_audio run = silent 100
         ∧ exported run = Some (py "output_audio/chapter_1.wav", silent 100)
         ∧ tts_calls run = [].
Proof.
  destruct (main_outcomes no_parse id engine_ok id export_writes
              (Some [Some []; Some []]) ∅) as [_ H].
  apply (H [SPACE]).
  - reflexivity.
  - done.
  - by repeat constructor.
Defined.

(** ** Text extraction for the script *)

Example script_text_sample :
  script_text (Some [Some (py " a" ++ [LF] ++ py "b" ++ [LF; LF] ++ py "c  d ");
                     Some (py "e")])
  = py "a b c d" ++ [SPACE; LF; LF] ++ py "e".
Proof. reflexivity. Qed.

Lemma collapse_unwrap in_run text :
  collapse_spaces in_run (unwrap_lines text) = collapse_spaces in_run text.
Proof.
  revert in_run. induction text as [|c rest IH]; intros in_run; [done|].
  cbn [unwrap_lines]. destruct (N.eqb_spec c LF) as [->|Hc].
  - assert (∀ x, isspace x = true →
      collapse_spaces in_run (x :: unwrap_lines rest)
      = collapse_spaces in_run (LF :: rest)) as H.
    { intros x Hx. cbn [collapse_spaces]. rewrite Hx.
      change (isspace LF) with true. cbv iota. by rewrite !IH. }
    destruct rest as [|next rest'] eqn:E; [apply H; reflexivity|].
    destruct (next =? LF)%N; apply H; reflexivity.
  - cbv iota. cbn [collapse_spaces]. by rewrite !IH.
Qed.

Lemma single_spaced_nil : single_spaced [].
Proof. intros a w b H. by destruct a. Qed.

Lemma single_spaced_cons c rest :
  (isspace c = true → c = SPACE ∧ clean_start rest) →
  single_spaced rest → single_spaced (c :: rest).
Proof.
  intros Hc Hrest [|x a] w b Heq Hw.
  - injection Heq as <- <-. by apply Hc.
  - injection Heq as _ ->. by apply (Hrest a w b).
Qed.

Lemma collapse_after_space text : clean_start (collapse_spaces true text).
Proof.
  induction text as [|c rest IH]; [done|]. simpl.
  destruct (isspace c) eqn:Ec; [done|]. simpl. done.
Qed.

Lemma collapse_single_spaced in_run text :
  single_spaced (collapse_spaces in_run text).
Proof.
  revert in_run. induction text as [|c rest IH]; intros in_run.
  - apply single_spaced_nil.
  - simpl. destruct (isspace c) eqn:Ec.
    + destruct in_run; [apply IH|].
      apply single_spaced_cons; [|apply IH].
      intros _. split; [done|]. apply collapse_after_space.
    + apply single_spaced_cons; [congruence|apply IH].
Qed.

(** X27: in the text of a page as cleaned for the script, every run of
    whitespace has become one space; the substitution of single line
    feeds that comes first changes nothing in the result, which is the
    same without it (paragraph breaks are not kept within a page). *)
Theorem script_page_spacing (text : str) :
  single_spaced (script_page text)
  ∧ script_page text = collapse_spaces false text.
Proof.
  unfold script_page. rewrite collapse_unwrap.
  split; [apply collapse_single_spaced|done].
Qed.

Lemma script_page_spacing_witness : 32%N = SPACE ∧ clean_start (py "b").
Proof.
  destruct (script_page_spacing (py "a" ++ [LF; LF] ++ py "b")) as [H _].
  apply (H (py "a") 32%N (py "b")); reflexivity.
Defined.

(** X28: the text extracted for the script has no whitespace at either
    end, and is empty when the document cannot be opened, when a page
    yields no text, and when the document has no page. *)
Theorem script_text_edges (pdf : option (list (option str))) :
  clean_start (script_text pdf)
  ∧ clean_start (reverse (script_text pdf))
  ∧ (pdf = None ∨ pdf = Some [] ∨ (∃ pages, pdf = Some pages ∧ None ∈ pages) →
     script_text pdf = []).
Proof.
  unfold script_text. split; [|split].
  - destruct (pdf ≫= mapM id); [apply lstrip_clean_start|done].
  - destruct (pdf ≫= mapM id); [apply strip_clean_end|done].
  - intros [->|[->|(pages & -> & Hin)]]; [done|done|]. simpl.
    destruct (mapM id pages) as [texts|] eqn:E; [|done].
    apply mapM_Some_1 in E. apply list_elem_of_lookup in Hin as [i Hi].
    destruct (Forall2_lookup_l _ _ _ _ _ E Hi) as (x & _ & Hx). done.
Qed.

Lemma script_text_edges_witness :
  script_text (Some [Some (py "a"); None]) = [].
Proof.
  apply (script_text_edges (Some [Some (py "a"); None])).
  right. right. eexists. split; [done|]. right. left.
Defined.

Lemma extraction_failure_witness :
  extract_text_from_pdf (Some [Some (py "a"); Some (py "b"); Some (py "c"); None])
  = Some (py "a b c").
Proof.
  destruct (extraction_failure
              (Some [Some (py "a"); Some (py "b"); Some (py "c"); None]))
    as [_ H].
  rewrite H. reflexivity.
Defined.
